(** * politika: the decision engine and the world mutation of [main.go]

    A shallow embedding of the rule/decision engine ([Guard.Pass],
    [Rule.Evaluate], [Scenario.Decisions]) and of the world mutation
    ([World.Apply], [updatedValue]), followed by the properties the
    specification states about them.

    Conventions of the embedding:
    - Go's [float64] is Rocq's primitive binary64 [float];
    - Go's [int] is [Z] (the code does no integer arithmetic of its own; the
      only integers it produces come out of a float conversion, which is
      written out with its 64-bit range);
    - Go's [map[string]T] is stdpp's [gmap string T]; where the code writes
      into a map, the [nil] map is kept apart from the empty one, because
      Go panics on a write into [nil];
    - a run-time panic is an explicit outcome ([Panics]), never an [error]
      value;
    - Go's [error] results are [option error], [None] being [nil]. *)

From Stdlib Require Import ZArith Floats Lia.
From stdpp Require Import gmap strings list sorting.

Local Open Scope Z_scope.

(** ** Outcomes of a call: a normal return or a run-time panic *)

Inductive panic : Type :=
| IndexOutOfRange (index len : nat)   (* slice index past the length *)
| NilMapAssignment                    (* assignment to entry in nil map *)
| TypeAssertion.                      (* interface conversion [x.(T)] failed *)

Inductive exec (A : Type) : Type :=
| Done (a : A)
| Panics (p : panic).
Arguments Done {A} a.
Arguments Panics {A} p.

Definition exec_bind {A B} (m : exec A) (k : A -> exec B) : exec B :=
  match m with
  | Done a => k a
  | Panics p => Panics p
  end.

Notation "x ←! m ; k" := (exec_bind m (fun x => k))
  (at level 100, m at next level, right associativity, only parsing).

Definition error := string.

(** ** float64 *)

Module F64.

(** [float64(n)] for an integer [n]: the nearest binary64, ties to even. *)
Definition of_int (n : Z) : float :=
  SF2Prim (binary_normalize prec emax n 0 false).

(** [m / 2^n] rounded to the nearest integer, a half going up. *)
Definition half_away (m : positive) (n : Z) : Z :=
  (Z.pos m + 2 ^ n / 2) / 2 ^ n.

(** [math.Round]: the nearest integer, halves rounded away from zero;
    zeros, infinities and NaN are returned as they are, and a value that
    rounds to zero keeps its sign. *)
Definition SFround (x : spec_float) : spec_float :=
  match x with
  | S754_finite s m e =>
      if 0 <=? e then x
      else
        match half_away m (- e) with
        | Z0 => S754_zero s
        | q => binary_normalize prec emax (cond_Zopp s q) 0 s
        end
  | _ => x
  end.

Definition Round (x : float) : float := SF2Prim (SFround (Prim2SF x)).

Definition min_int : Z := - 2 ^ 63.
Definition max_int : Z := 2 ^ 63 - 1.

(** [int(x)] for a float64 [x]: the fraction is discarded (truncation
    towards zero). When the value does not fit in 64 bits, or is not a
    number, Go leaves the result to the implementation; this is what
    amd64 produces (the "integer indefinite" value of CVTTSD2SQ). *)
Definition to_int (x : float) : Z :=
  match Prim2SF x with
  | S754_zero _ => 0
  | S754_finite s m e =>
      let mag := if 0 <=? e then Z.pos m * 2 ^ e else Z.pos m / 2 ^ (- e) in
      let v := cond_Zopp s mag in
      if (min_int <=? v) && (v <=? max_int) then v else min_int
  | _ => min_int
  end.

(** Not a number: [x != x], as [math.IsNaN] tests it. *)
Definition is_nan (x : float) : bool := negb (PrimFloat.eqb x x).

(** What a source of randomness promises for a draw: [0 <= x < 1]. *)
Definition in_unit_interval (x : float) : bool :=
  PrimFloat.leb 0%float x && PrimFloat.ltb x 1%float.

(** The order of binary64 read off the representation: the numbers that
    are not NaN are ranked by sign class, then exponent, then mantissa,
    both reversed for the negative ones. *)
Definition rank (x : spec_float) : Z * Z * Z :=
  match x with
  | S754_nan | S754_zero _ => (0, 0, 0)
  | S754_infinity s => (if s then -2 else 2, 0, 0)
  | S754_finite s m e => if s then (-1, - e, Z.neg m) else (1, e, Z.pos m)
  end.

Definition lex_lt (a b : Z * Z * Z) : Prop :=
  let '(a1, a2, a3) := a in
  let '(b1, b2, b3) := b in
  a1 < b1 ∨ (a1 = b1 ∧ (a2 < b2 ∨ (a2 = b2 ∧ a3 < b3))).

End F64.

(** ** Data model *)

(** [type Delta []float64] *)
Definition Delta := list float.

(** [Change]: the code only ever ranges over these two maps, and ranging
    over a [nil] map is ranging over an empty one. *)
Record Change : Type := mkChange {
  Change_Resources : gmap string Delta;
  Change_Powers : gmap string Delta;
}.

Record Choice : Type := mkChoice {
  Choice_Description : string;
  Choice_Change : Change;
}.

Record Decision : Type := mkDecision {
  Decision_Description : string;
  Choices : list Choice;
}.

(** A Go map that the code writes into: [None] is the [nil] map. *)
Definition gomap (V : Type) := option (gmap string V).

(** [m[k]] as an expression: the zero value when [k] is absent or [m] is nil. *)
Definition map_read (m : gomap Z) (k : string) : Z :=
  match m with
  | Some g => default 0 (g !! k)
  | None => 0
  end.

(** [m[k] = v] *)
Definition map_assign (m : gomap Z) (k : string) (v : Z) : exec (gomap Z) :=
  match m with
  | Some g => Done (Some (<[k := v]> g))
  | None => Panics NilMapAssignment
  end.

(** The entry of [k], if the map has one. *)
Definition map_entry (m : gomap Z) (k : string) : option Z :=
  match m with
  | Some g => g !! k
  | None => None
  end.

Record World : Type := mkWorld {
  World_Resources : gomap Z;
  World_Powers : gomap Z;
}.

(** ** The guard: [expr.Run] on a parsed node

    The expression library is an external collaborator. A parsed node is
    represented by what [expr.Run] computes from it on an environment that
    binds ["World"]: a dynamically typed output and an error. *)

Inductive value : Type :=
| VBool (b : bool)
| VOther.                 (* an output of any other dynamic type *)

Definition expr_Node := World -> value * option error.

Definition expr_Run (node : expr_Node) (world : World) : value * option error :=
  node world.

Record Guard : Type := mkGuard { Node : expr_Node }.

Definition Pass (g : Guard) (world : World) : exec (bool * option error) :=
  let '(out, err) := expr_Run (Node g) world in
  match err with
  | Some e => Done (false, Some e)
  | None =>
      match out with
      | VBool b => Done (b, None)
      | VOther => Panics TypeAssertion
      end
  end.

Record Rule : Type := mkRule {
  Rule_Guard : Guard;
  Weight : float;
  Rule_Decision : Decision;
}.

Definition Evaluate (r : Rule) (world : World) : exec (float * option error) :=
  pe ←! Pass (Rule_Guard r) world;
  match snd pe with
  | Some e => Done (0%float, Some e)
  | None => if negb (fst pe) then Done (0%float, None) else Done (Weight r, None)
  end.

Record Scenario : Type := mkScenario { Rules : list Rule }.

Record CandidateDecision : Type := mkCandidate {
  Cand_Weight : float;
  Cand_Decision : Decision;
}.

Definition CandidateRanking := list CandidateDecision.

(** [CandidateRanking.Less], on the two elements it is asked about. *)
Definition Less (ci cj : CandidateDecision) : bool :=
  PrimFloat.ltb (Cand_Weight ci) (Cand_Weight cj).

(** ** The randomness source

    [type Rand interface { Float64() float64 }]: an object with a state of
    its own; a draw returns a number and the state after the draw. *)

Class Rand (R : Type) := Float64 : R -> float * R.

(** The first [n] draws of a source. *)
Fixpoint draws {R} `{Rand R} (n : nat) (r : R) : list float :=
  match n with
  | O => []
  | S n' => let '(x, r') := Float64 r in x :: draws n' r'
  end.

(** A source that returns the same number at every draw. *)
Inductive Constant : Type := AlwaysReturn (x : float).

#[export] Instance Constant_Rand : Rand Constant :=
  fun r => match r with AlwaysReturn x => (x, r) end.

(** A source that replays a recorded tape and returns [0] once it is
    through. *)
Inductive Replay : Type := Tape (rest : list float).

#[export] Instance Replay_Rand : Rand Replay :=
  fun r =>
    match r with
    | Tape [] => (0%float, Tape [])
    | Tape (x :: rest) => (x, Tape rest)
    end.

(** ** The decision engine *)

(** The first loop of [Decisions]: one candidate per rule, in declaration
    order; the first error ends the call with [(nil, err)]. *)
Fixpoint build_candidates (rules : list Rule) (world : World)
  : exec (list CandidateDecision * option error) :=
  match rules with
  | [] => Done ([], None)
  | rule :: rules' =>
      we ←! Evaluate rule world;
      match snd we with
      | Some err => Done ([], Some err)
      | None =>
          rest ←! build_candidates rules' world;
          match snd rest with
          | Some err => Done ([], Some err)
          | None =>
              Done (mkCandidate (fst we) (Rule_Decision rule) :: fst rest, None)
          end
      end
  end.

(** The second loop of [Decisions]: one draw per candidate visited, the
    decision appended when the draw is below the weight, and [break] as
    soon as the list is longer than the cap. *)
Fixpoint sample {R} `{Rand R} (candidates : list CandidateDecision) (r : R)
    (decisions : list Decision) (maxNumDecisions : Z) : list Decision * R :=
  match candidates with
  | [] => (decisions, r)
  | candidate :: candidates' =>
      let '(x, r') := Float64 r in
      if PrimFloat.ltb x (Cand_Weight candidate) then
        let decisions' := decisions ++ [Cand_Decision candidate] in
        if Z.of_nat (length decisions') >? maxNumDecisions then (decisions', r')
        else sample candidates' r' decisions' maxNumDecisions
      else sample candidates' r' decisions maxNumDecisions
  end.

Section Engine.

(** [sort.Sort] of the Go library, on a [CandidateRanking]: the slice is
    sorted in place, and [candidates] shares its array with [ranking], so
    the second loop walks the sorted slice. *)
Variable sort_Sort : CandidateRanking -> CandidateRanking.

Definition Decisions {R} `{Rand R} (s : Scenario) (r : R) (world : World)
    (maxNumDecisions : Z) : exec (list Decision * option error) * R :=
  match build_candidates (Rules s) world with
  | Panics p => (Panics p, r)
  | Done (_, Some err) => (Done ([], Some err), r)
  | Done (candidates, None) =>
      let ranking := sort_Sort candidates in
      let '(decisions, r') := sample ranking r [] maxNumDecisions in
      (Done (decisions, None), r')
  end.

End Engine.

(** What [sort.Sort] comes down to on a slice of a few elements, as the
    scenarios of this program are: the library's [insertionSort], each
    element swapped leftwards while it is [Less] than its left neighbour.
    [left] is the part already visited, nearest neighbour first. *)
Fixpoint sink (x : CandidateDecision) (left : list CandidateDecision)
  : list CandidateDecision :=
  match left with
  | [] => [x]
  | y :: left' => if Less x y then y :: sink x left' else x :: left
  end.

Fixpoint insertion_loop (left rest : list CandidateDecision)
  : list CandidateDecision :=
  match rest with
  | [] => reverse left
  | x :: rest' => insertion_loop (sink x left) rest'
  end.

Definition insertionSort (data : CandidateRanking) : CandidateRanking :=
  insertion_loop [] data.

(** ** World mutation *)

(** [delta[i]] *)
Definition index (delta : Delta) (i : nat) : exec float :=
  match nth_error delta i with
  | Some x => Done x
  | None => Panics (IndexOutOfRange i (length delta))
  end.

(** [int(math.Round(delta[0]*float64(old) + delta[1]))]; the product is
    rounded before the sum is taken (no fused multiply-add, as on amd64). *)
Definition updatedValue (old : Z) (delta : Delta) : exec Z :=
  d0 ←! index delta 0;
  d1 ←! index delta 1;
  Done (F64.to_int (F64.Round (PrimFloat.add (PrimFloat.mul d0 (F64.of_int old)) d1))).

(** One [for name, delta := range ...] loop of [Apply], over the entries in
    the order the iteration yields them. The map is updated in place, so
    the state reached when a panic stops the loop is part of the result. *)
Fixpoint range_update (entries : list (string * Delta)) (m : gomap Z)
  : gomap Z * option panic :=
  match entries with
  | [] => (m, None)
  | (name, delta) :: entries' =>
      match updatedValue (map_read m name) delta with
      | Panics p => (m, Some p)
      | Done v =>
          match map_assign m name v with
          | Panics p => (m, Some p)
          | Done m' => range_update entries' m'
          end
      end
  end.

(** [Apply] with the two iteration orders made explicit. *)
Definition Apply_in (resources powers : list (string * Delta)) (w : World)
  : World * exec (option error) :=
  let '(rs, p) := range_update resources (World_Resources w) in
  match p with
  | Some p => (mkWorld rs (World_Powers w), Panics p)
  | None =>
      let '(ps, p) := range_update powers (World_Powers w) in
      match p with
      | Some p => (mkWorld rs ps, Panics p)
      | None => (mkWorld rs ps, Done None)
      end
  end.

(** [w.Apply(choice)]: Go does not fix the iteration order of a map, so a
    call may take any order of the entries; [w'] is the world the call
    leaves behind and [out] how it ended. (An earlier version of the
    program has [Apply] return the world next to the error; its loops are
    the same.) *)
Definition Apply (w : World) (choice : Choice) (w' : World)
    (out : exec (option error)) : Prop :=
  ∃ resources powers,
    resources ≡ₚ map_to_list (Change_Resources (Choice_Change choice)) ∧
    powers ≡ₚ map_to_list (Change_Powers (Choice_Change choice)) ∧
    Apply_in resources powers w = (w', out).

(** The order stdpp lists a map in: one of the orders Go may take. *)
Definition Apply_canonical (w : World) (choice : Choice)
  : World * exec (option error) :=
  Apply_in (map_to_list (Change_Resources (Choice_Change choice)))
           (map_to_list (Change_Powers (Choice_Change choice))) w.

(** Some delta of the change has fewer than two components. *)
Definition short_delta (choice : Choice) : Prop :=
  ∃ name delta,
    (Change_Resources (Choice_Change choice) !! name = Some delta ∨
     Change_Powers (Choice_Change choice) !! name = Some delta) ∧
    (length delta < 2)%nat.

(** Some delta of the change does not have exactly two components. *)
Definition malformed_delta (choice : Choice) : Prop :=
  ∃ name delta,
    (Change_Resources (Choice_Change choice) !! name = Some delta ∨
     Change_Powers (Choice_Change choice) !! name = Some delta) ∧
    length delta ≠ 2%nat.

(** ** The scenario of [main] and the acceptance scenario *)

Module Example.

(** The initial world of [gameLoop]. *)
Definition world : World :=
  mkWorld (Some {[ "Money" := 4000 ]})
          (Some (<[ "Military" := 90 ]> {[ "Legislation" := 10 ]})).

(** ["World.Resources.Money > 1000 and World.Powers.Military >= 90"], as
    the expression library runs it on a world that has both fields; on a
    world that lacks one the run reports an error. *)
Definition putsch_guard : Guard :=
  mkGuard (fun w =>
    match map_entry (World_Resources w) "Money",
          map_entry (World_Powers w) "Military" with
    | Some money, Some military =>
        (VBool ((money >? 1000) && (military >=? 90)), None)
    | _, _ => (VOther, Some "cannot fetch field from map"%string)
    end).

(** [Choice A] of the acceptance scenario. *)
Definition choice_A : Choice :=
  mkChoice "Accept"
    (mkChange {[ "Money" := [0.5; 0]%float ]}
              {[ "Legislation" := [0; 100]%float ]}).

Definition make_putsch : Decision := mkDecision "Make putsch" [choice_A].

Definition putsch_rule : Rule := mkRule putsch_guard 1%float make_putsch.

Definition scenario : Scenario := mkScenario [putsch_rule].

(** A guard that is ["true"], one that is ["false"], one whose run fails
    and one whose output is not a boolean. *)
Definition guard_true : Guard := mkGuard (fun _ => (VBool true, None)).
Definition guard_false : Guard := mkGuard (fun _ => (VBool false, None)).
Definition guard_failing : Guard :=
  mkGuard (fun _ => (VOther, Some "invalid operation"%string)).
Definition guard_not_bool : Guard := mkGuard (fun _ => (VOther, None)).

Definition quit : Decision :=
  mkDecision "Quit" [mkChoice "Accept" (mkChange ∅ ∅)].
Definition wait : Decision :=
  mkDecision "Wait" [mkChoice "Accept" (mkChange ∅ ∅)].

Definition candidate (w : float) : CandidateDecision := mkCandidate w quit.

(** The two rules of [main]'s scenario, both with weight 1. *)
Definition two_rules : Scenario :=
  mkScenario [putsch_rule; mkRule guard_true 1%float quit].

(** Three rules with weights 0.75, 0.5 and 1, the guard of the second
    one false. *)
Definition mixed : Scenario :=
  mkScenario [mkRule guard_true 0.75%float quit;
              mkRule guard_false 0.5%float wait;
              putsch_rule].

(** A rule whose guard fails, between two that evaluate. *)
Definition failing : Scenario :=
  mkScenario [putsch_rule;
              mkRule guard_failing 0.5%float wait;
              mkRule guard_true 1%float quit].

(** Three rules that always pass, the second with a weight that is not a
    number. *)
Definition nan_weight : Scenario :=
  mkScenario [mkRule guard_true 3%float quit;
              mkRule guard_true nan wait;
              putsch_rule].

(** The world after [choice_A], and after [choice_A] twice. *)
Definition world_after : World :=
  mkWorld (Some {[ "Money" := 2000 ]})
          (Some (<[ "Military" := 90 ]> {[ "Legislation" := 100 ]})).

Definition world_after_twice : World :=
  mkWorld (Some {[ "Money" := 1000 ]})
          (Some (<[ "Military" := 90 ]> {[ "Legislation" := 100 ]})).

(** A change whose power delta has one component. *)
Definition choice_one_component : Choice :=
  mkChoice "Accept"
    (mkChange {[ "Money" := [0.5; 0]%float ]}
              {[ "Military" := [0.5]%float ]}).

(** The world in which the call on [choice_one_component] panics. *)
Definition world_at_panic : World :=
  mkWorld (Some {[ "Money" := 2000 ]})
          (Some (<[ "Military" := 90 ]> {[ "Legislation" := 10 ]})).

(** A change whose delta has three components. *)
Definition choice_three_components : Choice :=
  mkChoice "Accept" (mkChange {[ "Money" := [0.5; 0; 7]%float ]} ∅).

End Example.

(** ** The rest of the program

    [sort.Interface] on a ranking, the construction of rules, the turn
    loop and the part of the console that picks a choice. *)

(** [CandidateRanking.Len] *)
Definition Len (c : CandidateRanking) : Z := Z.of_nat (length c).

(** [c[i]] on a ranking; [sort.Sort] passes indices from [0] on, and an
    index is a natural number here. *)
Definition ranking_at (c : CandidateRanking) (i : nat) : exec CandidateDecision :=
  match c !! i with
  | Some x => Done x
  | None => Panics (IndexOutOfRange i (length c))
  end.

(** [CandidateRanking.Swap]: [c[i], c[j] = c[j], c[i]]; the right-hand side
    is read first, [c[j]] then [c[i]], and the two stores follow. *)
Definition Swap (c : CandidateRanking) (i j : nat) : exec CandidateRanking :=
  cj ←! ranking_at c j;
  ci ←! ranking_at c i;
  Done (<[j := ci]> (<[i := cj]> c)).

(** [CandidateRanking.Less], on indices. *)
Definition Less_at (c : CandidateRanking) (i j : nat) : exec bool :=
  ci ←! ranking_at c i;
  cj ←! ranking_at c j;
  Done (Less ci cj).

(** A run of [Swap] calls, as a sort makes them, stopped by the first
    panic. *)
Fixpoint Swaps (c : CandidateRanking) (calls : list (nat * nat))
  : exec CandidateRanking :=
  match calls with
  | [] => Done c
  | (i, j) :: calls' => c' ←! Swap c i j; Swaps c' calls'
  end.

Section Rules.

(** [expr.Parse] with the definition of ["World"]: a node and an error. *)
Variable expr_Parse : string → expr_Node * option error.

(** What [expr.Run] makes of the [nil] node of a zero [Guard]. *)
Variable nil_Node : expr_Node.

(** [Rule{}] *)
Definition zero_Rule : Rule :=
  mkRule (mkGuard nil_Node) 0%float (mkDecision "" []).

Definition NewRule (guard : string) (weight : float) (decision : Decision)
  : Rule * option error :=
  let '(node, err) := expr_Parse guard in
  match err with
  | Some e => (zero_Rule, Some e)
  | None => (mkRule (mkGuard node) weight decision, None)
  end.

(** The choices and decisions of [main]; the multiplier of ["Reject"] is
    the binary64 that the literal [0.1] denotes. *)
Definition main_accept : Choice :=
  mkChoice "Accept"
    (mkChange (<[ "Money" := [0.5; 0]%float ]>
                 {[ "Popularity" := [0; 0]%float ]})
              {[ "Legislation" := [0; 100]%float ]}).

Definition main_reject : Choice :=
  mkChoice "Reject"
    (mkChange ∅ {[ "Military" := [0x1.999999999999ap-4; 0]%float ]}).

Definition main_make_putsch : Decision :=
  mkDecision "Make putsch" [main_accept; main_reject].

(** The initial world after ["Accept"], and after ["Reject"]. *)
Definition world_after_accept : World :=
  mkWorld (Some (<[ "Popularity" := 0 ]> {[ "Money" := 2000 ]}))
          (Some (<[ "Military" := 90 ]> {[ "Legislation" := 100 ]})).

Definition world_after_reject : World :=
  mkWorld (Some {[ "Money" := 4000 ]})
          (Some (<[ "Military" := 9 ]> {[ "Legislation" := 10 ]})).

Definition world_after_both : World :=
  mkWorld (Some (<[ "Popularity" := 0 ]> {[ "Money" := 2000 ]}))
          (Some (<[ "Military" := 9 ]> {[ "Legislation" := 100 ]})).

(** [World{}] *)
Definition zero_World : World := mkWorld None None.

Definition main_quit_accept : Choice := mkChoice "Accept" (mkChange ∅ ∅).

Definition main_quit : Decision := mkDecision "Quit" [main_quit_accept].

Definition main_guard : string :=
  "World.Resources.Money > 1000 and World.Powers.Military >= 90".

(** How [main] starts: with [log.Fatalf], or with a scenario handed to
    [gameLoop]. *)
Inductive main_start : Type :=
| Fatalf (err : error)
| Started (scenario : Scenario).

(** The head of [main]: the error of the first [NewRule] is overwritten by
    the one of the second before it is looked at. *)
Definition main_rules : main_start :=
  let '(rule1, err) := NewRule main_guard 1%float main_make_putsch in
  let '(rule2, err) := NewRule "true" 1%float main_quit in
  match err with
  | Some e => Fatalf e
  | None => Started (mkScenario [rule1; rule2])
  end.

End Rules.

(** The state of a source after [n] draws. *)
Fixpoint after_draws {R} `{Rand R} (n : nat) (r : R) : R :=
  match n with
  | O => r
  | S n' => after_draws n' (Float64 r).2
  end.

(** ** The turn loop of [gameLoop]

    The goroutine, seen through what it sends and how it ends; the choices
    it receives before [choiceCh] is closed are its input. A world is
    recorded as it stands when it is sent. *)

Inductive event : Type :=
| SendWorld (w : World)               (* [worldCh <- world] *)
| SendDecisions (ds : list Decision). (* [decisionCh <- decisions] *)

Inductive ending : Type :=
| Fatal (err : error)        (* [log.Fatalf]: error getting decisions *)
| Stuck                      (* no decision to offer: [return] *)
| ChoiceClosed               (* [choiceCh] closed: [return] *)
| ApplyFailed (err : error)  (* error applying the choice: [return] *)
| Crashed (p : panic).       (* a panic of the goroutine *)

(** The cap [gameLoop] passes to [Decisions]. *)
Definition turn_cap : Z := 3.

Inductive turns (sort_Sort : CandidateRanking → CandidateRanking)
    {R : Type} `{Rand R} (scenario : Scenario)
  : World → R → list Choice → list event → ending → Prop :=
| turn_Crashed w r choices p r' :
    Decisions sort_Sort scenario r w turn_cap = (Panics p, r') →
    turns sort_Sort scenario w r choices [SendWorld w] (Crashed p)
| turn_Fatal w r choices ds err r' :
    Decisions sort_Sort scenario r w turn_cap = (Done (ds, Some err), r') →
    turns sort_Sort scenario w r choices [SendWorld w] (Fatal err)
| turn_Stuck w r choices r' :
    Decisions sort_Sort scenario r w turn_cap = (Done ([], None), r') →
    turns sort_Sort scenario w r choices [SendWorld w] Stuck
| turn_ChoiceClosed w r ds r' :
    Decisions sort_Sort scenario r w turn_cap = (Done (ds, None), r') →
    ds ≠ [] →
    turns sort_Sort scenario w r [] [SendWorld w; SendDecisions ds] ChoiceClosed
| turn_Apply_Crashed w r choice choices ds r' w' p :
    Decisions sort_Sort scenario r w turn_cap = (Done (ds, None), r') →
    ds ≠ [] →
    Apply w choice w' (Panics p) →
    turns sort_Sort scenario w r (choice :: choices)
          [SendWorld w; SendDecisions ds] (Crashed p)
| turn_ApplyFailed w r choice choices ds r' w' err :
    Decisions sort_Sort scenario r w turn_cap = (Done (ds, None), r') →
    ds ≠ [] →
    Apply w choice w' (Done (Some err)) →
    turns sort_Sort scenario w r (choice :: choices)
          [SendWorld w; SendDecisions ds] (ApplyFailed err)
| turn_next w r choice choices ds r' w' trace e :
    Decisions sort_Sort scenario r w turn_cap = (Done (ds, None), r') →
    ds ≠ [] →
    Apply w choice w' (Done None) →
    turns sort_Sort scenario w' r' choices trace e →
    turns sort_Sort scenario w r (choice :: choices)
          (SendWorld w :: SendDecisions ds :: trace) e.

(** [gameLoop]: the turns from the world it builds. *)
Definition gameLoop (sort_Sort : CandidateRanking → CandidateRanking)
    {R : Type} `{Rand R} (scenario : Scenario) (r : R)
    (choices : list Choice) (trace : list event) (e : ending) : Prop :=
  turns sort_Sort scenario Example.world r choices trace e.

(** A parser that knows ["true"] only, and a [nil] node whose run fails:
    stand-ins for the expression library. *)
Definition parse_only_true (text : string) : expr_Node * option error :=
  if String.eqb text "true"
  then (Node Example.guard_true, None)
  else (Node Example.guard_not_bool, Some "syntax error"%string).

Definition nil_node_fails : expr_Node :=
  fun _ => (VOther, Some "nil node"%string).

(** The scenario [main] builds when both guards parse, with ["true"] as
    the expression library runs it. *)
Definition main_scenario : Scenario :=
  mkScenario [mkRule Example.putsch_guard 1%float main_make_putsch;
              mkRule Example.guard_true 1%float main_quit].

(** What the loop sends when ["Accept"] is chosen once and the channel is
    closed next, the source drawing 0.25 each time. *)
Definition accept_once_trace : list event :=
  [SendWorld Example.world;
   SendDecisions [main_make_putsch; main_quit];
   SendWorld world_after_accept;
   SendDecisions [main_make_putsch; main_quit]].

(** ** The choice table of [consoleUI] *)

(** The rows of the table: the choices of the decisions offered, appended
    one by one in the two nested loops. *)
Definition table_choices (decisions : list Decision) : list Choice :=
  foldl (λ choices decision,
           foldl (λ choices choice, choices ++ [choice])
                 choices (Choices decision))
        [] decisions.

(** The handler of [OnItemActivated]: what it sends on [choiceCh], if
    anything, when the row [selected] is activated. *)
Definition OnItemActivated (choices : list Choice) (selected : Z)
  : option Choice :=
  if (selected >=? 0) && (selected <? Z.of_nat (length choices))
  then choices !! Z.to_nat selected
  else None.

(** * Properties *)

(** ** The order of float64

    [<] and [<=] of binary64, through the specification of the primitive
    comparisons: on the numbers that are not NaN they are the strict and
    the large side of one total preorder. *)

Module F64_order.
Import F64.

(** [half_away] is to the nearest integer, and a half goes to the larger
    magnitude: with [math.Round] working on the magnitude, away from
    zero. *)
Lemma half_away_nearest (m : positive) (n : Z) :
  0 < n →
  2 * Z.abs (half_away m n * 2 ^ n - Z.pos m) ≤ 2 ^ n ∧
  (2 * (Z.pos m mod 2 ^ n) = 2 ^ n → half_away m n = Z.pos m / 2 ^ n + 1).
Proof.
  intros Hn. unfold half_away.
  assert (Hd : 2 ^ n = 2 * 2 ^ (n - 1)).
  { rewrite <- Z.pow_succ_r by lia. f_equal. lia. }
  assert (Hh : 0 < 2 ^ (n - 1)) by (apply Z.pow_pos_nonneg; lia).
  set (d := 2 ^ n) in *. set (h := 2 ^ (n - 1)) in *.
  assert (Hhalf : d / 2 = h) by (rewrite Hd, Z.mul_comm; apply Z.div_mul; lia).
  pose proof (Z.div_mod (Z.pos m) d ltac:(lia)) as Hm.
  pose proof (Z.mod_pos_bound (Z.pos m) d ltac:(lia)) as Hb.
  set (a := Z.pos m / d) in *. set (b := Z.pos m mod d) in *.
  assert (Hq : (Z.pos m + d / 2) / d = if b <? h then a else a + 1).
  { rewrite Hhalf. destruct (Z.ltb_spec b h).
    - symmetry. apply Z.div_unique with (r := b + h); lia.
    - symmetry. apply Z.div_unique with (r := b + h - d); lia. }
  rewrite Hq. destruct (Z.ltb_spec b h); split; lia.
Qed.

(** The conversions and [math.Round] on a few numbers. *)
Example of_int_4000 : of_int 4000 = 4000%float.
Proof. reflexivity. Qed.

Example of_int_rounds_to_even : of_int (2 ^ 53 + 1) = of_int (2 ^ 53).
Proof. reflexivity. Qed.

Example Round_halves :
  Round 2.5%float = 3%float ∧ Round (-2.5)%float = (-3)%float ∧
  Round 0.5%float = 1%float ∧ Round 1.25%float = 1%float ∧
  Round (-0.25)%float = (-0)%float ∧ Round nan = nan ∧
  Round infinity = infinity.
Proof. repeat split; reflexivity. Qed.

Example to_int_truncates :
  to_int 7.75%float = 7 ∧ to_int (-7.75)%float = -7 ∧
  to_int 0x1p+80%float = min_int ∧ to_int nan = min_int.
Proof. repeat split; reflexivity. Qed.

Lemma SFcompare_lex x y :
  x ≠ S754_nan → y ≠ S754_nan →
  ∃ c, SFcompare x y = Some c ∧
       (c = Lt ↔ lex_lt (rank x) (rank y)) ∧
       (c = Gt ↔ lex_lt (rank y) (rank x)).
Proof.
  intros Hx Hy.
  destruct x as [sx|sx| |sx mx ex], y as [sy|sy| |sy my ey];
    try congruence; try destruct sx; try destruct sy;
    cbn [SFcompare rank lex_lt]; eexists; (split; [reflexivity|]);
    try change (Pos.compare_cont Eq mx my) with (Pos.compare mx my);
    try destruct (Z.compare_spec ex ey); try destruct (Pos.compare_spec mx my);
    cbn [CompOpp]; split; split; intros; (discriminate || lia || reflexivity).
Qed.

Lemma is_nan_spec x : is_nan x = true ↔ Prim2SF x = S754_nan.
Proof.
  unfold is_nan. rewrite FloatAxioms.eqb_spec. unfold SFeqb.
  destruct (Prim2SF x) as [s|s| |s m e] eqn:E; cbn [SFcompare].
  - split; [discriminate|congruence].
  - destruct s; (split; [discriminate|congruence]).
  - split; reflexivity.
  - change (Pos.compare_cont Eq m m) with (Pos.compare m m).
    rewrite Z.compare_refl, Pos.compare_refl.
    destruct s; (split; [discriminate|congruence]).
Qed.

Lemma is_nan_false x : is_nan x = false ↔ Prim2SF x ≠ S754_nan.
Proof.
  rewrite <- is_nan_spec. destruct (is_nan x); split; congruence.
Qed.

Lemma ltb_lex x y :
  PrimFloat.ltb x y = true ↔
  is_nan x = false ∧ is_nan y = false ∧
  lex_lt (rank (Prim2SF x)) (rank (Prim2SF y)).
Proof.
  rewrite ltb_spec, !is_nan_false. unfold SFltb. split.
  - intros H.
    assert (Hx : Prim2SF x ≠ S754_nan)
      by (intros E; rewrite E in H; discriminate).
    assert (Hy : Prim2SF y ≠ S754_nan)
      by (intros E; rewrite E in H; destruct (Prim2SF x); discriminate).
    destruct (SFcompare_lex _ _ Hx Hy) as (c & Hc & Hlt & _).
    rewrite Hc in H. destruct c; try discriminate. tauto.
  - intros (Hx & Hy & Hlt).
    destruct (SFcompare_lex _ _ Hx Hy) as (c & Hc & Hc' & _).
    rewrite Hc. apply Hc' in Hlt. now subst c.
Qed.

Lemma leb_lex x y :
  PrimFloat.leb x y = true ↔
  is_nan x = false ∧ is_nan y = false ∧
  ¬ lex_lt (rank (Prim2SF y)) (rank (Prim2SF x)).
Proof.
  rewrite leb_spec, !is_nan_false. unfold SFleb. split.
  - intros H.
    assert (Hx : Prim2SF x ≠ S754_nan)
      by (intros E; rewrite E in H; discriminate).
    assert (Hy : Prim2SF y ≠ S754_nan)
      by (intros E; rewrite E in H; destruct (Prim2SF x); discriminate).
    destruct (SFcompare_lex _ _ Hx Hy) as (c & Hc & _ & Hgt).
    rewrite Hc in H. repeat split; try assumption.
    intros Hlt. apply Hgt in Hlt. subst c. discriminate.
  - intros (Hx & Hy & Hlt).
    destruct (SFcompare_lex _ _ Hx Hy) as (c & Hc & _ & Hgt).
    rewrite Hc. destruct c; try reflexivity. exfalso. tauto.
Qed.

Lemma lex_lt_trans a b c : lex_lt a b → lex_lt b c → lex_lt a c.
Proof. destruct a as [[? ?] ?], b as [[? ?] ?], c as [[? ?] ?]. unfold lex_lt. lia. Qed.

Lemma lex_lt_asym a b : lex_lt a b → ¬ lex_lt b a.
Proof. destruct a as [[? ?] ?], b as [[? ?] ?]. unfold lex_lt. lia. Qed.

Lemma lex_lt_neg_trans a b c : ¬ lex_lt a b → ¬ lex_lt b c → ¬ lex_lt a c.
Proof. destruct a as [[? ?] ?], b as [[? ?] ?], c as [[? ?] ?]. unfold lex_lt. lia. Qed.

Lemma ltb_false x y :
  is_nan x = false → is_nan y = false →
  PrimFloat.ltb y x = false → PrimFloat.leb x y = true.
Proof.
  intros Hx Hy H. apply leb_lex. repeat split; try assumption.
  intros Hlt. assert (PrimFloat.ltb y x = true) by (apply ltb_lex; auto).
  congruence.
Qed.

Lemma leb_ltb_trans x y z :
  PrimFloat.leb x y = true → PrimFloat.ltb y z = true → PrimFloat.ltb x z = true.
Proof.
  rewrite leb_lex, !ltb_lex. intros (Hx & Hy & H1) (_ & Hz & H2).
  repeat split; try assumption.
  destruct (rank (Prim2SF x)) as [[? ?] ?], (rank (Prim2SF y)) as [[? ?] ?],
           (rank (Prim2SF z)) as [[? ?] ?]. unfold lex_lt in *. lia.
Qed.

Lemma ltb_asym x y : PrimFloat.ltb x y = true → PrimFloat.ltb y x = false.
Proof.
  intros H. destruct (PrimFloat.ltb y x) eqn:E; [|reflexivity].
  apply ltb_lex in H as (_ & _ & H1). apply ltb_lex in E as (_ & _ & H2).
  now destruct (lex_lt_asym _ _ H1).
Qed.

(** Without NaN, "not below" is transitive: [<] is a strict weak order,
    which is what [sort.Sort] asks of [Less]. *)
Lemma ltb_false_trans x y z :
  is_nan x = false → is_nan y = false → is_nan z = false →
  PrimFloat.ltb x y = false → PrimFloat.ltb y z = false →
  PrimFloat.ltb x z = false.
Proof.
  intros Hx Hy Hz Hxy Hyz.
  destruct (PrimFloat.ltb x z) eqn:E; [|reflexivity].
  apply ltb_lex in E as (_ & _ & Hlt).
  assert (Hnxy : ¬ lex_lt (rank (Prim2SF x)) (rank (Prim2SF y))).
  { intros Hc. assert (PrimFloat.ltb x y = true) by (apply ltb_lex; auto).
    congruence. }
  assert (Hnyz : ¬ lex_lt (rank (Prim2SF y)) (rank (Prim2SF z))).
  { intros Hc. assert (PrimFloat.ltb y z = true) by (apply ltb_lex; auto).
    congruence. }
  now destruct (lex_lt_neg_trans _ _ _ Hnxy Hnyz).
Qed.

Lemma ltb_is_nan x y :
  PrimFloat.ltb x y = true → is_nan x = false ∧ is_nan y = false.
Proof. intros H. apply ltb_lex in H. tauto. Qed.

(** A weight of the data model, [0 <= w], is a number. *)
Lemma nonneg_not_nan w : PrimFloat.leb 0%float w = true → is_nan w = false.
Proof. intros H. apply leb_lex in H. tauto. Qed.

Lemma zero_not_nan : is_nan 0%float = false.
Proof. reflexivity. Qed.

Lemma zero_not_below_zero : PrimFloat.ltb 0%float 0%float = false.
Proof. reflexivity. Qed.

(** A draw of the unit interval is never below a weight of zero. *)
Lemma unit_interval_accepts x w :
  in_unit_interval x = true → PrimFloat.ltb x w = true →
  PrimFloat.ltb 0%float w = true.
Proof.
  unfold in_unit_interval. intros [Hx _]%andb_prop Hw.
  exact (leb_ltb_trans _ _ _ Hx Hw).
Qed.

End F64_order.

(** ** [Rule.Evaluate] *)

(** C4. On every world and rule: a guard that evaluates to false gives
    weight 0 whatever the rule's weight is, a guard that evaluates to true
    gives exactly the rule's weight, and when the guard's run fails the
    error it reports is returned as it is. *)
Theorem Evaluate_guard_cases (r : Rule) (world : World) :
  (Pass (Rule_Guard r) world = Done (false, None) →
     Evaluate r world = Done (0%float, None)) ∧
  (Pass (Rule_Guard r) world = Done (true, None) →
     Evaluate r world = Done (Weight r, None)) ∧
  (∀ pass err, Pass (Rule_Guard r) world = Done (pass, Some err) →
     Evaluate r world = Done (0%float, Some err)).
Proof.
  unfold Evaluate.
  repeat split; [intros H | intros H | intros pass err H]; now rewrite H.
Qed.

Lemma Evaluate_guard_cases_witness :
  Evaluate (mkRule Example.guard_false 0.75%float Example.quit) Example.world
    = Done (0%float, None) ∧
  Evaluate Example.putsch_rule Example.world = Done (1%float, None) ∧
  Evaluate (mkRule Example.guard_failing 0.75%float Example.quit) Example.world
    = Done (0%float, Some "invalid operation"%string).
Proof.
  split; [|split].
  - apply (proj1 (Evaluate_guard_cases (mkRule _ _ _) _)). reflexivity.
  - apply (proj1 (proj2 (Evaluate_guard_cases Example.putsch_rule _))).
    reflexivity.
  - apply (proj2 (proj2 (Evaluate_guard_cases (mkRule _ _ _) _)) false).
    reflexivity.
Defined.

(** [Evaluate] has no weight to give when the guard's output is not a
    boolean: the type assertion of [Pass] panics. *)
Lemma Evaluate_not_bool (r : Rule) (world : World) :
  expr_Run (Node (Rule_Guard r)) world = (VOther, None) →
  Evaluate r world = Panics TypeAssertion.
Proof. intros H. unfold Evaluate, Pass. now rewrite H. Qed.

(** The two ways in which [Evaluate] returns a weight and no error. *)
Lemma Evaluate_inv (r : Rule) (world : World) weight :
  Evaluate r world = Done (weight, None) →
  (Pass (Rule_Guard r) world = Done (false, None) ∧ weight = 0%float) ∨
  (Pass (Rule_Guard r) world = Done (true, None) ∧ weight = Weight r).
Proof.
  unfold Evaluate.
  destruct (Pass (Rule_Guard r) world) as [[[] [e|]]|p]; cbn; intros H;
    inversion H; auto.
Qed.

(** ** The first loop: candidates *)

(** When the first loop ends without an error, every rule has its
    candidate, in declaration order. *)
Lemma build_candidates_Forall2 (world : World) (rules : list Rule) :
  ∀ candidates,
    build_candidates rules world = Done (candidates, None) →
    Forall2 (λ rule c, Evaluate rule world = Done (Cand_Weight c, None) ∧
                       Cand_Decision c = Rule_Decision rule)
            rules candidates.
Proof.
  induction rules as [|rule rules IH]; intros candidates; cbn.
  - intros [= <-]. constructor.
  - destruct (Evaluate rule world) as [[weight [e|]]|p] eqn:Hev; cbn;
      try discriminate.
    destruct (build_candidates rules world) as [[rest [e|]]|p]; cbn;
      try discriminate.
    intros [= <-]. constructor; [split; [exact Hev | reflexivity] | now apply IH].
Qed.

(** An error comes with the [nil] slice. *)
Lemma build_candidates_error_nil (world : World) (rules : list Rule) :
  ∀ candidates err,
    build_candidates rules world = Done (candidates, Some err) →
    candidates = [].
Proof.
  destruct rules as [|rule rules]; intros candidates err; cbn.
  - discriminate.
  - destruct (Evaluate rule world) as [[weight [e|]]|p]; cbn;
      [now intros [= <- _] | | discriminate].
    destruct (build_candidates rules world) as [[rest [e|]]|p]; cbn;
      [now intros [= <- _] | discriminate | discriminate].
Qed.

Lemma build_candidates_first_error (world : World) (pre : list Rule) :
  ∀ rule post pass err,
    Forall (λ q, ∃ b, Pass (Rule_Guard q) world = Done (b, None)) pre →
    Pass (Rule_Guard rule) world = Done (pass, Some err) →
    build_candidates (pre ++ rule :: post) world = Done ([], Some err).
Proof.
  induction pre as [|q pre IH]; intros rule post pass err Hpre Hrule; cbn.
  - unfold Evaluate. now rewrite Hrule.
  - inversion Hpre as [|? ? [b Hq] Hpre']; subst.
    unfold Evaluate at 1. rewrite Hq. cbn.
    rewrite (IH _ post _ _ Hpre' Hrule).
    now destruct b.
Qed.

(** ** The second loop: sampling *)

Section Sampling.

Context {R : Type} `{Rand R}.

(** The loop invariant behind the cap: at the head of the loop the list
    is not longer than the cap. *)
Lemma sample_length (candidates : list CandidateDecision) :
  ∀ (r : R) decisions maxNumDecisions,
    Z.of_nat (length decisions) ≤ maxNumDecisions →
    Z.of_nat (length (sample candidates r decisions maxNumDecisions).1)
      ≤ maxNumDecisions + 1.
Proof.
  induction candidates as [|c candidates IH]; intros r ds k Hk; cbn.
  - lia.
  - destruct (Float64 r) as [x r'].
    destruct (PrimFloat.ltb x (Cand_Weight c)); [|now apply IH].
    destruct (Z.gtb_spec (Z.of_nat (length (ds ++ [Cand_Decision c]))) k)
      as [Hgt|Hle].
    + cbn. rewrite length_app in *. cbn in *. lia.
    + now apply IH.
Qed.

(** What the loop appends are the decisions of a subsequence of the
    candidates it walks, each accepted by a draw below its weight. *)
Lemma sample_accepted (candidates : list CandidateDecision) :
  ∀ (r : R) decisions maxNumDecisions,
    ∃ accepted,
      (sample candidates r decisions maxNumDecisions).1
        = decisions ++ (Cand_Decision <$> accepted) ∧
      sublist accepted candidates ∧
      Forall (λ c, ∃ x, x ∈ draws (length candidates) r ∧
                        PrimFloat.ltb x (Cand_Weight c) = true) accepted.
Proof.
  induction candidates as [|c candidates IH]; intros r ds k; cbn.
  - exists []. cbn. rewrite app_nil_r. repeat split; constructor.
  - destruct (Float64 r) as [x r'].
    destruct (PrimFloat.ltb x (Cand_Weight c)) eqn:Hlt.
    + assert (Hc : ∃ y, y ∈ x :: draws (length candidates) r' ∧
                        PrimFloat.ltb y (Cand_Weight c) = true)
        by (exists x; split; [left | assumption]).
      destruct (Z.of_nat (length (ds ++ [Cand_Decision c])) >? k).
      * exists [c]. cbn. repeat split.
        -- apply sublist_skip, sublist_nil_l.
        -- constructor; [exact Hc | constructor].
      * destruct (IH r' (ds ++ [Cand_Decision c]) k) as (acc & Hs & Hsub & Hacc).
        exists (c :: acc). rewrite Hs, <- app_assoc. repeat split.
        -- now apply sublist_skip.
        -- constructor; [exact Hc |].
           eapply Forall_impl; [exact Hacc |].
           intros c' (y & Hy & Hlty). exists y. split; [now right | assumption].
    + destruct (IH r' ds k) as (acc & Hs & Hsub & Hacc).
      exists acc. repeat split; [assumption | now apply sublist_cons |].
      eapply Forall_impl; [exact Hacc |].
      intros c' (y & Hy & Hlty). exists y. split; [now right | assumption].
Qed.

End Sampling.

(** The loop reads its source through the draws only: two sources that
    agree on as many draws as there are candidates give the same list. *)
Lemma sample_same_draws {R1 R2 : Type} `{Rand R1} `{Rand R2}
    (candidates : list CandidateDecision) :
  ∀ (r1 : R1) (r2 : R2) decisions maxNumDecisions,
    draws (length candidates) r1 = draws (length candidates) r2 →
    (sample candidates r1 decisions maxNumDecisions).1
      = (sample candidates r2 decisions maxNumDecisions).1.
Proof.
  induction candidates as [|c candidates IH]; intros r1 r2 ds k; cbn.
  - reflexivity.
  - destruct (Float64 r1) as [x1 r1'], (Float64 r2) as [x2 r2'].
    intros [= -> Htl].
    destruct (PrimFloat.ltb x2 (Cand_Weight c)); [|now apply IH].
    destruct (Z.of_nat (length (ds ++ [Cand_Decision c])) >? k);
      [reflexivity | now apply IH].
Qed.

(** ** [Scenario.Decisions] *)

(** C3. For every world, scenario, randomness source and cap [k >= 0], the
    list that [Decisions] returns has at most [k + 1] elements. *)
Theorem Decisions_length_cap (sort_Sort : CandidateRanking → CandidateRanking)
    {R : Type} `{Rand R} (s : Scenario) (r : R) (world : World) (k : Z)
    decisions err r' :
  0 ≤ k →
  Decisions sort_Sort s r world k = (Done (decisions, err), r') →
  Z.of_nat (length decisions) ≤ k + 1.
Proof.
  intros Hk. unfold Decisions.
  destruct (build_candidates (Rules s) world) as [[candidates [e|]]|p];
    [intros [= <- _ _]; cbn; lia | | discriminate].
  pose proof (sample_length (sort_Sort candidates) r [] k Hk) as Hlen.
  destruct (sample (sort_Sort candidates) r [] k) as [ds r''].
  now intros [= <- _ _].
Qed.

(** C5. When the guard of a rule fails with an error, the rules declared
    before it having evaluated, the whole call returns that error with the
    [nil] list; no draw is made. *)
Theorem Decisions_guard_error (sort_Sort : CandidateRanking → CandidateRanking)
    {R : Type} `{Rand R} (s : Scenario) (r : R) (world : World) (k : Z)
    pre rule post pass err :
  Rules s = pre ++ rule :: post →
  Forall (λ q, ∃ b, Pass (Rule_Guard q) world = Done (b, None)) pre →
  Pass (Rule_Guard rule) world = Done (pass, Some err) →
  Decisions sort_Sort s r world k = (Done ([], Some err), r).
Proof.
  intros Hrules Hpre Hrule. unfold Decisions.
  now rewrite Hrules, (build_candidates_first_error _ _ _ _ _ _ Hpre Hrule).
Qed.

(** When some guard fails and none panics, the error that comes back is
    the one of the first rule, in declaration order, whose guard fails. *)
Lemma build_candidates_some_error (world : World) (rules : list Rule) :
  Forall (λ q, ∃ b e, Pass (Rule_Guard q) world = Done (b, e)) rules →
  Exists (λ q, ∃ b err, Pass (Rule_Guard q) world = Done (b, Some err)) rules →
  ∃ pre rule post pass err,
    rules = pre ++ rule :: post ∧
    Forall (λ q, ∃ b, Pass (Rule_Guard q) world = Done (b, None)) pre ∧
    Pass (Rule_Guard rule) world = Done (pass, Some err).
Proof.
  induction rules as [|q rules IH]; intros Hall Hex; [inversion Hex|].
  apply Forall_cons in Hall as [(b & [err|] & Hq) Hall].
  - exists [], q, rules, b, err. repeat split; [constructor | exact Hq].
  - apply Exists_cons in Hex as [(b' & err & Hq')|Hex]; [congruence|].
    destruct (IH Hall Hex) as (pre & rule & post & pass & err & -> & Hpre & Hrule).
    exists (q :: pre), rule, post, pass, err.
    repeat split; [constructor; eauto | exact Hrule].
Qed.

Lemma Decisions_some_guard_error
    (sort_Sort : CandidateRanking → CandidateRanking)
    {R : Type} `{Rand R} (s : Scenario) (r : R) (world : World) (k : Z) :
  Forall (λ q, ∃ b e, Pass (Rule_Guard q) world = Done (b, e)) (Rules s) →
  Exists (λ q, ∃ b err, Pass (Rule_Guard q) world = Done (b, Some err))
         (Rules s) →
  ∃ rule pass err,
    rule ∈ Rules s ∧
    Pass (Rule_Guard rule) world = Done (pass, Some err) ∧
    Decisions sort_Sort s r world k = (Done ([], Some err), r).
Proof.
  intros Hall Hex.
  destruct (build_candidates_some_error _ _ Hall Hex)
    as (pre & rule & post & pass & err & Hrules & Hpre & Hrule).
  exists rule, pass, err. split; [|split; [exact Hrule|]].
  - rewrite Hrules. apply elem_of_app. right. left.
  - unfold Decisions.
    now rewrite Hrules, (build_candidates_first_error _ _ _ _ _ _ Hpre Hrule).
Qed.

(** A guard whose output is not a boolean makes the whole call panic. *)
Example Decisions_guard_not_bool :
  Decisions insertionSort
    (mkScenario [Example.putsch_rule;
                 mkRule Example.guard_not_bool 1%float Example.quit])
    (AlwaysReturn 0%float) Example.world 3
    = (Panics TypeAssertion, AlwaysReturn 0%float).
Proof. reflexivity. Qed.

(** C2. With the world, the scenario and the cap fixed, two calls whose
    randomness sources replay the same sequence of draws return the same
    result, whatever the sources are made of. *)
Theorem Decisions_deterministic
    (sort_Sort : CandidateRanking → CandidateRanking)
    {R1 R2 : Type} `{Rand R1} `{Rand R2}
    (s : Scenario) (world : World) (k : Z) (r1 : R1) (r2 : R2) :
  (∀ n, draws n r1 = draws n r2) →
  (Decisions sort_Sort s r1 world k).1 = (Decisions sort_Sort s r2 world k).1.
Proof.
  intros Hdraws. unfold Decisions.
  destruct (build_candidates (Rules s) world) as [[candidates [e|]]|p];
    try reflexivity.
  pose proof (sample_same_draws (sort_Sort candidates) r1 r2 [] k
                (Hdraws _)) as Hsame.
  destruct (sample (sort_Sort candidates) r1 [] k) as [ds1 r1'],
           (sample (sort_Sort candidates) r2 [] k) as [ds2 r2'].
  cbn in *. now rewrite Hsame.
Qed.

(** Every candidate of a first loop that ended well was built from a rule
    of the scenario. *)
Lemma build_candidates_origin (world : World) (rules : list Rule)
    (candidates : list CandidateDecision) (c : CandidateDecision) :
  build_candidates rules world = Done (candidates, None) →
  c ∈ candidates →
  ∃ rule, rule ∈ rules ∧
          Evaluate rule world = Done (Cand_Weight c, None) ∧
          Cand_Decision c = Rule_Decision rule.
Proof.
  intros Hb%build_candidates_Forall2 Hc.
  induction Hb as [|rule c' rules candidates Hhd _ IH].
  - inversion Hc.
  - apply elem_of_cons in Hc as [->|Hc].
    + exists rule. split; [left | exact Hhd].
    + destruct (IH Hc) as (q & Hq & Hev). exists q. split; [now right | exact Hev].
Qed.

(** A candidate weighs nothing or what its rule weighs. *)
Lemma build_candidates_not_nan (world : World) (rules : list Rule)
    (candidates : list CandidateDecision) :
  Forall (λ rule, F64.is_nan (Weight rule) = false) rules →
  build_candidates rules world = Done (candidates, None) →
  Forall (λ c, F64.is_nan (Cand_Weight c) = false) candidates.
Proof.
  intros Hrules Hb. apply Forall_forall. intros c Hc.
  destruct (build_candidates_origin _ _ _ _ Hb Hc) as (rule & Hin & Hev & _).
  apply Evaluate_inv in Hev as [[_ ->]|[_ ->]].
  - exact F64_order.zero_not_nan.
  - revert rule Hin. now apply Forall_forall.
Qed.

(** ** The engine on top of [sort.Sort]'s contract *)

Section Sorted_engine.

Variable sort_Sort : CandidateRanking → CandidateRanking.

(** [sort.Sort] moves the elements with [Swap] only. *)
Hypothesis sort_Sort_Permutation : ∀ data, sort_Sort data ≡ₚ data.

(** [sort.Sort] sorts in ascending order as [Less] determines it: no
    element is [Less] than one before it. The documentation asks [Less]
    to be a transitive ordering and points out that [<] on float64 is
    not one in the presence of NaN. *)
Hypothesis sort_Sort_ascending :
  ∀ data,
    Forall (λ c, F64.is_nan (Cand_Weight c) = false) data →
    StronglySorted (λ a b, Less b a = false) (sort_Sort data).

Context {R : Type} `{Rand R}.

(** Every decision offered comes from a rule whose guard passed and
    whose weight is above zero. *)
Lemma Decisions_offered_origin (s : Scenario) (r : R) (world : World)
    (k : Z) decisions r' d :
  (∀ n, Forall (λ x, F64.in_unit_interval x = true) (draws n r)) →
  Decisions sort_Sort s r world k = (Done (decisions, None), r') →
  d ∈ decisions →
  ∃ rule, rule ∈ Rules s ∧ Rule_Decision rule = d ∧
          Pass (Rule_Guard rule) world = Done (true, None) ∧
          PrimFloat.ltb 0%float (Weight rule) = true.
Proof.
  intros Hdraws. unfold Decisions.
  destruct (build_candidates (Rules s) world) as [[candidates [e|]]|p] eqn:Hb;
    try discriminate.
  destruct (sample_accepted (sort_Sort candidates) r [] k)
    as (accepted & Hs & Hsub & Hacc).
  destruct (sample (sort_Sort candidates) r [] k) as [ds r''].
  cbn in Hs. subst ds. intros [= <- _] Hd.
  apply list_elem_of_fmap in Hd as (c & -> & Hc).
  assert (Hpos : PrimFloat.ltb 0%float (Cand_Weight c) = true).
  { rewrite Forall_forall in Hacc. destruct (Hacc c Hc) as (x & Hx & Hlt).
    apply (F64_order.unit_interval_accepts x); [|exact Hlt].
    specialize (Hdraws (length (sort_Sort candidates))).
    rewrite Forall_forall in Hdraws. now apply Hdraws. }
  assert (Hin : c ∈ candidates).
  { rewrite <- (sort_Sort_Permutation candidates).
    exact (elem_of_sublist _ _ _ Hc Hsub). }
  destruct (build_candidates_origin _ _ _ _ Hb Hin) as (rule & Hrule & Hev & Hdec).
  exists rule. split; [exact Hrule | split; [now symmetry |]].
  apply Evaluate_inv in Hev as [[_ Hw]|[Hpass Hw]].
  - rewrite Hw in Hpos. discriminate.
  - rewrite <- Hw. now split.
Qed.

(** C10. With a source whose draws are all in [[0,1)], a decision that
    only rules with a false guard carry is never in the list
    [Decisions] returns: the candidate of such a rule weighs 0, and no
    draw is strictly below 0. *)
Theorem Decisions_skips_false_guards (s : Scenario) (r : R) (world : World)
    (k : Z) decisions r' d :
  (∀ n, Forall (λ x, F64.in_unit_interval x = true) (draws n r)) →
  Decisions sort_Sort s r world k = (Done (decisions, None), r') →
  (∀ rule, rule ∈ Rules s → Rule_Decision rule = d →
           Pass (Rule_Guard rule) world = Done (false, None)) →
  d ∉ decisions.
Proof.
  intros Hdraws Hrun Hfalse Hd.
  destruct (Decisions_offered_origin _ _ _ _ _ _ _ Hdraws Hrun Hd)
    as (rule & Hrule & Hdec & Hpass & _).
  specialize (Hfalse rule Hrule Hdec). congruence.
Qed.

(** Among numbers that are not NaN, a slice in which nothing is [Less]
    than what precedes it is a slice of non-decreasing weights. *)
Lemma ascending_weights (data : list CandidateDecision) :
  Forall (λ c, F64.is_nan (Cand_Weight c) = false) data →
  StronglySorted (λ a b, Less b a = false) data →
  StronglySorted
    (λ a b, PrimFloat.leb (Cand_Weight a) (Cand_Weight b) = true) data.
Proof.
  intros Hnan Hsorted.
  induction Hsorted as [|a data _ IH Hhd]; [constructor|].
  apply Forall_cons in Hnan as [Ha Hnan].
  constructor; [now apply IH |].
  rewrite Forall_forall in *. intros b Hb.
  apply F64_order.ltb_false; [exact Ha | now apply Hnan | now apply Hhd].
Qed.

Lemma StronglySorted_sublist {A} (rel : A → A → Prop) (l1 l2 : list A) :
  sublist l1 l2 → StronglySorted rel l2 → StronglySorted rel l1.
Proof.
  induction 1 as [|x l1 l2 Hsub IH|x l1 l2 Hsub IH]; intros Hs.
  - constructor.
  - apply StronglySorted_inv in Hs as [Hs Hhd].
    constructor; [now apply IH |].
    rewrite Forall_forall in *. intros y Hy.
    apply Hhd. exact (elem_of_sublist _ _ _ Hy Hsub).
  - apply StronglySorted_inv in Hs as [Hs _]. now apply IH.
Qed.

(** C6. The decisions come out in ascending order of candidate weight:
    the ranking is the candidates sorted by non-decreasing weight, the
    list returned is the decisions of a subsequence of the ranking, in
    the ranking's order, and the weights along it are non-decreasing.
    The rules' weights are numbers (never negative by the data model, so
    not NaN). *)
Theorem Decisions_ascending (s : Scenario) (r : R) (world : World) (k : Z)
    decisions r' :
  Forall (λ rule, F64.is_nan (Weight rule) = false) (Rules s) →
  Decisions sort_Sort s r world k = (Done (decisions, None), r') →
  ∃ candidates accepted,
    build_candidates (Rules s) world = Done (candidates, None) ∧
    StronglySorted
      (λ a b, PrimFloat.leb (Cand_Weight a) (Cand_Weight b) = true)
      (sort_Sort candidates) ∧
    sublist accepted (sort_Sort candidates) ∧
    decisions = Cand_Decision <$> accepted ∧
    StronglySorted
      (λ a b, PrimFloat.leb (Cand_Weight a) (Cand_Weight b) = true)
      accepted.
Proof.
  intros Hweights. unfold Decisions.
  destruct (build_candidates (Rules s) world) as [[candidates [e|]]|p] eqn:Hb;
    try discriminate.
  destruct (sample_accepted (sort_Sort candidates) r [] k)
    as (accepted & Hs & Hsub & _).
  destruct (sample (sort_Sort candidates) r [] k) as [ds r''].
  cbn in Hs. subst ds. intros [= <- _].
  assert (Hnan : Forall (λ c, F64.is_nan (Cand_Weight c) = false) candidates)
    by exact (build_candidates_not_nan _ _ _ Hweights Hb).
  assert (Hranking : StronglySorted
            (λ a b, PrimFloat.leb (Cand_Weight a) (Cand_Weight b) = true)
            (sort_Sort candidates)).
  { apply ascending_weights; [|now apply sort_Sort_ascending].
    now rewrite sort_Sort_Permutation. }
  exists candidates, accepted. repeat split; try assumption.
  exact (StronglySorted_sublist _ _ _ Hsub Hranking).
Qed.

End Sorted_engine.

(** ** [insertionSort] meets the contract of [sort.Sort] *)

Lemma sink_Permutation (x : CandidateDecision) (left : list CandidateDecision) :
  sink x left ≡ₚ x :: left.
Proof.
  induction left as [|y left IH]; cbn [sink]; [reflexivity|].
  destruct (Less x y); [|reflexivity].
  rewrite IH. apply Permutation_swap.
Qed.

Lemma insertion_loop_Permutation (rest : list CandidateDecision) :
  ∀ left, insertion_loop left rest ≡ₚ left ++ rest.
Proof.
  induction rest as [|x rest IH]; intros left; cbn [insertion_loop].
  - now rewrite reverse_Permutation, app_nil_r.
  - rewrite IH, sink_Permutation. apply Permutation_middle.
Qed.

Lemma insertionSort_Permutation (data : CandidateRanking) :
  insertionSort data ≡ₚ data.
Proof. apply insertion_loop_Permutation. Qed.

(** The inner loop keeps the visited part in order: read from the nearest
    neighbour leftwards, no element is [Less] than a later one. *)
Lemma sink_sorted (x : CandidateDecision) (left : list CandidateDecision) :
  F64.is_nan (Cand_Weight x) = false →
  Forall (λ c, F64.is_nan (Cand_Weight c) = false) left →
  StronglySorted (λ a b, Less a b = false) left →
  StronglySorted (λ a b, Less a b = false) (sink x left).
Proof.
  intros Hx Hnan Hsorted.
  induction Hsorted as [|y left Hsorted IH Hy]; cbn [sink].
  - repeat constructor.
  - apply Forall_cons in Hnan as [Hynan Hnan].
    destruct (Less x y) eqn:Hxy.
    + constructor; [now apply IH |].
      rewrite sink_Permutation. constructor; [|exact Hy].
      now apply F64_order.ltb_asym.
    + constructor; [now constructor |].
      constructor; [exact Hxy |].
      rewrite Forall_forall in *. intros z Hz.
      apply (F64_order.ltb_false_trans _ (Cand_Weight y));
        auto using Hx, Hynan.
      now apply Hy.
Qed.

Lemma StronglySorted_reverse {A} (rel : A → A → Prop) (l : list A) :
  StronglySorted rel l → StronglySorted (λ a b, rel b a) (reverse l).
Proof.
  induction 1 as [|x l _ IH Hx]; [constructor|].
  rewrite reverse_cons. apply StronglySorted_app.
  split; [|split; [exact IH | repeat constructor]].
  intros a b Ha Hb%list_elem_of_singleton. subst b.
  rewrite elem_of_reverse in Ha.
  rewrite Forall_forall in Hx. now apply Hx.
Qed.

Lemma insertion_loop_sorted (rest : list CandidateDecision) :
  ∀ left,
    Forall (λ c, F64.is_nan (Cand_Weight c) = false) (left ++ rest) →
    StronglySorted (λ a b, Less a b = false) left →
    StronglySorted (λ a b, Less b a = false) (insertion_loop left rest).
Proof.
  induction rest as [|x rest IH]; intros left Hnan Hsorted;
    cbn [insertion_loop].
  - now apply StronglySorted_reverse.
  - apply Forall_app in Hnan as [Hleft [Hx Hrest]%Forall_cons].
    apply IH.
    + apply Forall_app. split; [|exact Hrest].
      rewrite sink_Permutation. now constructor.
    + now apply sink_sorted.
Qed.

Lemma insertionSort_ascending (data : CandidateRanking) :
  Forall (λ c, F64.is_nan (Cand_Weight c) = false) data →
  StronglySorted (λ a b, Less b a = false) (insertionSort data).
Proof.
  intros Hnan. apply insertion_loop_sorted; [exact Hnan | constructor].
Qed.

(** With a NaN among the weights [Less] is not an ordering, and the sort
    leaves a slice that is not in ascending order. *)
Example insertionSort_NaN :
  Cand_Weight <$> insertionSort (Example.candidate <$> [3; nan; 1]%float)
    = [3; nan; 1]%float.
Proof. reflexivity. Qed.

(** ** [updatedValue] and the loops of [Apply] *)

(** A delta of two components or more is applied through its first two. *)
Lemma updatedValue_two (old : Z) (delta : Delta) :
  (2 ≤ length delta)%nat →
  ∃ d0 d1 rest,
    delta = d0 :: d1 :: rest ∧
    updatedValue old delta
      = Done (F64.to_int (F64.Round
                (PrimFloat.add (PrimFloat.mul d0 (F64.of_int old)) d1))).
Proof.
  destruct delta as [|d0 [|d1 rest]]; cbn; try lia.
  intros _. now exists d0, d1, rest.
Qed.

(** A shorter delta cannot be indexed. *)
Lemma updatedValue_short (old : Z) (delta : Delta) :
  (length delta < 2)%nat →
  updatedValue old delta = Panics (IndexOutOfRange (length delta) (length delta)).
Proof. destruct delta as [|d0 [|d1 rest]]; cbn; (reflexivity || lia). Qed.

(** A loop of [Apply] leaves alone the entries it does not range over. *)
Lemma range_update_frame (entries : list (string * Delta)) :
  ∀ m m' p name,
    range_update entries m = (m', p) →
    name ∉ entries.*1 →
    map_entry m' name = map_entry m name.
Proof.
  induction entries as [|[k delta] entries IH]; intros m m' p name;
    cbn [range_update].
  - now intros [= <- _].
  - rewrite fmap_cons. intros Hrun [Hne Hnotin]%not_elem_of_cons.
    cbn [fst] in Hne.
    destruct (updatedValue (map_read m k) delta) as [v|q];
      [|now injection Hrun as <- _].
    destruct m as [g|]; cbn in Hrun; [|now injection Hrun as <- _].
    rewrite (IH _ _ _ _ Hrun Hnotin). cbn. now apply lookup_insert_ne.
Qed.

(** A loop that ends without a panic has met deltas of two components or
    more only. *)
Lemma range_update_returns (entries : list (string * Delta)) :
  ∀ m m', range_update entries m = (m', None) →
          Forall (λ e, (2 ≤ length e.2)%nat) entries.
Proof.
  induction entries as [|[k delta] entries IH]; intros m m'; cbn;
    [constructor|].
  destruct (Nat.le_gt_cases 2 (length delta)) as [Hlen|Hlen].
  - destruct (updatedValue (map_read m k) delta) as [v|q]; [|discriminate].
    destruct (map_assign m k v) as [m1|q]; [|discriminate].
    intros Hrun. constructor; [exact Hlen | exact (IH _ _ Hrun)].
  - now rewrite (updatedValue_short _ _ Hlen).
Qed.

(** On a map that is not [nil], the only panic is an index out of range. *)
Lemma range_update_panic (entries : list (string * Delta)) :
  ∀ g m' p, range_update entries (Some g) = (m', Some p) →
            ∃ i len, p = IndexOutOfRange i len ∧ (len < 2)%nat.
Proof.
  induction entries as [|[k delta] entries IH]; intros g m' p; cbn;
    [discriminate|].
  destruct (Nat.le_gt_cases 2 (length delta)) as [Hlen|Hlen].
  - destruct (updatedValue_two (default 0 (g !! k)) delta Hlen)
      as (d0 & d1 & rest & _ & ->).
    apply IH.
  - rewrite (updatedValue_short _ _ Hlen). intros [= _ <-]. eauto.
Qed.

(** On a map that is not [nil], with names that are pairwise distinct and
    deltas of two components or more, a loop of [Apply] gives every name it
    ranges over the value [updatedValue] computes from the old one, and
    the map stays a map. *)
Lemma range_update_spec (entries : list (string * Delta)) :
  ∀ g,
    NoDup entries.*1 →
    Forall (λ e, (2 ≤ length e.2)%nat) entries →
    ∃ g',
      range_update entries (Some g) = (Some g', None) ∧
      ∀ name delta, (name, delta) ∈ entries →
        ∃ v, updatedValue (default 0 (g !! name)) delta = Done v ∧
             g' !! name = Some v.
Proof.
  induction entries as [|[k delta] entries IH]; intros g Hnodup Hlen.
  - exists g. split; [reflexivity|]. intros name delta Hin. inversion Hin.
  - rewrite fmap_cons in Hnodup. apply NoDup_cons in Hnodup as [Hk Hnodup].
    apply Forall_cons in Hlen as [Hdelta Hlen]. cbn [fst snd] in Hk, Hdelta.
    destruct (updatedValue_two (default 0 (g !! k)) delta Hdelta)
      as (d0 & d1 & rest & _ & Hv).
    remember (F64.to_int (F64.Round
                (PrimFloat.add (PrimFloat.mul d0
                   (F64.of_int (default 0 (g !! k)))) d1))) as v eqn:Ev.
    destruct (IH (<[k := v]> g) Hnodup Hlen) as (g' & Hrun & Hupd).
    exists g'. split.
    { cbn [range_update map_read map_assign]. now rewrite Hv. }
    intros name delta' [[= -> ->]|Hin]%elem_of_cons.
    + exists v. split; [exact Hv|].
      pose proof (range_update_frame _ _ _ _ k Hrun Hk) as Hframe.
      cbn [map_entry] in Hframe. now rewrite Hframe, lookup_insert_eq.
    + assert (Hne : k ≠ name).
      { intros ->. apply Hk. apply list_elem_of_fmap. now exists (name, delta'). }
      destruct (Hupd _ _ Hin) as (v' & Hval & Hlook).
      rewrite lookup_insert_ne in Hval by exact Hne. eauto.
Qed.

(** ** [World.Apply] *)

(** Whatever order the iteration takes, it yields the entries of the map,
    each once. *)
Section Iteration_order.

Context (M : gmap string Delta) (entries : list (string * Delta)).
Hypothesis order : entries ≡ₚ map_to_list M.

Lemma order_elem_of name delta : (name, delta) ∈ entries ↔ M !! name = Some delta.
Proof using order. rewrite order. apply elem_of_map_to_list. Qed.

Lemma order_absent name : M !! name = None → name ∉ entries.*1.
Proof using order.
  intros Hnone ([k delta] & -> & Hin)%list_elem_of_fmap.
  apply order_elem_of in Hin. cbn in Hnone. congruence.
Qed.

Lemma order_NoDup : NoDup entries.*1.
Proof using order. rewrite order. apply NoDup_fst_map_to_list. Qed.

Lemma order_Forall (P : Delta → Prop) :
  Forall (λ e, P e.2) entries ↔ map_Forall (λ _ delta, P delta) M.
Proof using order.
  rewrite Forall_forall. unfold map_Forall. split.
  - intros Hall name delta Hin. apply order_elem_of in Hin.
    exact (Hall _ Hin).
  - intros Hall [name delta] Hin. apply order_elem_of in Hin.
    exact (Hall _ _ Hin).
Qed.

Lemma order_empty : M = ∅ → entries = [].
Proof using order.
  intros ->. rewrite map_to_list_empty in order.
  now apply Permutation_nil_r.
Qed.

End Iteration_order.

(** C7. [Apply] touches the entries the change names, and no other: a
    resource or a power whose name is absent from the change keeps its
    entry, and with an empty change the world stays as it is (and the
    call returns [nil]). *)
Theorem Apply_frame (w : World) (choice : Choice) (w' : World)
    (out : exec (option error)) :
  Apply w choice w' out →
  (∀ name, Change_Resources (Choice_Change choice) !! name = None →
           map_entry (World_Resources w') name
             = map_entry (World_Resources w) name) ∧
  (∀ name, Change_Powers (Choice_Change choice) !! name = None →
           map_entry (World_Powers w') name
             = map_entry (World_Powers w) name) ∧
  (Change_Resources (Choice_Change choice) = ∅ →
   Change_Powers (Choice_Change choice) = ∅ →
   w' = w ∧ out = Done None).
Proof.
  intros (resources & powers & Hres & Hpow & Hrun).
  unfold Apply_in in Hrun.
  destruct (range_update resources (World_Resources w)) as [rs p] eqn:Hrs.
  split; [|split].
  - intros name Hnone.
    pose proof (order_absent _ _ Hres _ Hnone) as Hnotin.
    rewrite <- (range_update_frame _ _ _ _ _ Hrs Hnotin).
    destruct p as [p|]; [now injection Hrun as <- _|].
    destruct (range_update powers (World_Powers w)) as [ps [p|]];
      now injection Hrun as <- _.
  - intros name Hnone.
    pose proof (order_absent _ _ Hpow _ Hnone) as Hnotin.
    destruct p as [p|]; [now injection Hrun as <- _|].
    destruct (range_update powers (World_Powers w)) as [ps p] eqn:Hps.
    rewrite <- (range_update_frame _ _ _ _ _ Hps Hnotin).
    destruct p as [p|]; now injection Hrun as <- _.
  - intros Hr Hp.
    rewrite (order_empty _ _ Hres Hr) in Hrs.
    rewrite (order_empty _ _ Hpow Hp) in Hrun.
    cbn in Hrs, Hrun. injection Hrs as <- <-.
    injection Hrun as <- <-. now destruct w.
Qed.

(** What [Apply] does to the entries the change names, when nothing makes
    it panic: each gets what [updatedValue] computes from the value read
    before, and the call returns [nil]. A delta of more than two
    components passes, the ones past the second unread. *)
Lemma Apply_updates (w : World) (choice : Choice) (w' : World)
    (out : exec (option error)) :
  Apply w choice w' out →
  is_Some (World_Resources w) → is_Some (World_Powers w) →
  ¬ short_delta choice →
  out = Done None ∧
  (∀ name delta,
     Change_Resources (Choice_Change choice) !! name = Some delta →
     ∃ v, updatedValue (map_read (World_Resources w) name) delta = Done v ∧
          map_entry (World_Resources w') name = Some v) ∧
  (∀ name delta,
     Change_Powers (Choice_Change choice) !! name = Some delta →
     ∃ v, updatedValue (map_read (World_Powers w) name) delta = Done v ∧
          map_entry (World_Powers w') name = Some v).
Proof.
  intros (resources & powers & Hres & Hpow & Hrun) [gr Hgr] [gp Hgp] Hshort.
  assert (Hlr : Forall (λ e, (2 ≤ length e.2)%nat) resources).
  { apply (order_Forall _ _ Hres (λ d, (2 ≤ length d)%nat)).
    intros name delta Hin. destruct (Nat.le_gt_cases 2 (length delta)); [done|].
    destruct Hshort. exists name, delta. auto. }
  assert (Hlp : Forall (λ e, (2 ≤ length e.2)%nat) powers).
  { apply (order_Forall _ _ Hpow (λ d, (2 ≤ length d)%nat)).
    intros name delta Hin. destruct (Nat.le_gt_cases 2 (length delta)); [done|].
    destruct Hshort. exists name, delta. auto. }
  destruct (range_update_spec resources gr (order_NoDup _ _ Hres) Hlr)
    as (gr' & Hrr & Hur).
  destruct (range_update_spec powers gp (order_NoDup _ _ Hpow) Hlp)
    as (gp' & Hrp & Hup).
  unfold Apply_in in Hrun. rewrite Hgr, Hrr, Hgp, Hrp in Hrun.
  injection Hrun as <- <-. rewrite Hgr, Hgp. cbn.
  split; [reflexivity|]. split.
  - intros name delta Hin. apply Hur. now apply (order_elem_of _ _ Hres).
  - intros name delta Hin. apply Hup. now apply (order_elem_of _ _ Hpow).
Qed.

(** C1, as the code has it. [Apply] validates nothing and never fails
    with an error. A change with a delta of fewer than two components
    makes the call panic, with an index out of range when the maps of the
    world are not [nil]. When every delta has two components or more (a
    longer one is not rejected) and the maps of the world are not [nil],
    the call returns [nil], every delta applied through its first two
    components. *)
Theorem Apply_never_rejects (w : World) (choice : Choice) (w' : World)
    (out : exec (option error)) :
  Apply w choice w' out →
  (∀ err, out ≠ Done (Some err)) ∧
  (short_delta choice → ∃ p, out = Panics p) ∧
  (short_delta choice →
   is_Some (World_Resources w) → is_Some (World_Powers w) →
   ∃ i len, out = Panics (IndexOutOfRange i len) ∧ (len < 2)%nat) ∧
  (¬ short_delta choice →
   is_Some (World_Resources w) → is_Some (World_Powers w) →
   out = Done None ∧
   (∀ name d0 d1 rest,
      Change_Resources (Choice_Change choice) !! name = Some (d0 :: d1 :: rest) →
      map_entry (World_Resources w') name
        = Some (F64.to_int (F64.Round
            (PrimFloat.add
               (PrimFloat.mul d0
                  (F64.of_int (map_read (World_Resources w) name))) d1)))) ∧
   (∀ name d0 d1 rest,
      Change_Powers (Choice_Change choice) !! name = Some (d0 :: d1 :: rest) →
      map_entry (World_Powers w') name
        = Some (F64.to_int (F64.Round
            (PrimFloat.add
               (PrimFloat.mul d0
                  (F64.of_int (map_read (World_Powers w) name))) d1))))).
Proof.
  intros Happly.
  assert (Hshort : short_delta choice → ∃ p, out = Panics p).
  { destruct Happly as (resources & powers & Hres & Hpow & Hrun).
    intros (name & delta & Hin & Hlen). unfold Apply_in in Hrun.
    destruct (range_update resources (World_Resources w)) as [rs [p|]] eqn:Hrs;
      [injection Hrun as _ <-; eauto|].
    destruct (range_update powers (World_Powers w)) as [ps [p|]] eqn:Hps;
      [injection Hrun as _ <-; eauto|].
    exfalso.
    apply range_update_returns in Hrs, Hps.
    apply (order_Forall _ _ Hres (λ d, (2 ≤ length d)%nat)) in Hrs.
    apply (order_Forall _ _ Hpow (λ d, (2 ≤ length d)%nat)) in Hps.
    destruct Hin as [Hin|Hin]; [apply Hrs in Hin | apply Hps in Hin]; lia. }
  split; [|split; [exact Hshort|split]].
  - destruct Happly as (resources & powers & _ & _ & Hrun).
    intros err ->. unfold Apply_in in Hrun.
    destruct (range_update resources (World_Resources w)) as [rs [p|]];
      [discriminate|].
    destruct (range_update powers (World_Powers w)) as [ps [p|]];
      discriminate.
  - intros Hs [gr Hgr] [gp Hgp]. destruct (Hshort Hs) as [p ->].
    destruct Happly as (resources & powers & _ & _ & Hrun).
    unfold Apply_in in Hrun. rewrite Hgr, Hgp in Hrun.
    destruct (range_update resources (Some gr)) as [rs [q|]] eqn:Hrs.
    + injection Hrun as _ <-.
      destruct (range_update_panic _ _ _ _ Hrs) as (i & len & -> & Hlen). eauto.
    + destruct (range_update powers (Some gp)) as [ps [q|]] eqn:Hps;
        [|discriminate].
      injection Hrun as _ <-.
      destruct (range_update_panic _ _ _ _ Hps) as (i & len & -> & Hlen). eauto.
  - intros Hns Hr Hp.
    destruct (Apply_updates _ _ _ _ Happly Hr Hp Hns) as (Hout & Hres & Hpow).
    split; [exact Hout|]. split.
    + intros name d0 d1 rest Hin.
      destruct (Hres _ _ Hin) as (v & Hv & Hentry).
      cbn in Hv. injection Hv as <-. exact Hentry.
    + intros name d0 d1 rest Hin.
      destruct (Hpow _ _ Hin) as (v & Hv & Hentry).
      cbn in Hv. injection Hv as <-. exact Hentry.
Qed.

(** The one order in which a map of one entry is ranged over. *)
Lemma order_singleton (name : string) (delta : Delta)
    (entries : list (string * Delta)) :
  entries ≡ₚ map_to_list ({[ name := delta ]} : gmap string Delta) →
  entries = [(name, delta)].
Proof.
  rewrite map_to_list_singleton. intros Hp. symmetry in Hp.
  now apply Permutation_singleton_l in Hp.
Qed.

(** The canonical order is one that [Apply] may take. *)
Lemma Apply_canonical_Apply (w : World) (choice : Choice) :
  Apply w choice (Apply_canonical w choice).1 (Apply_canonical w choice).2.
Proof.
  exists (map_to_list (Change_Resources (Choice_Change choice))),
         (map_to_list (Change_Powers (Choice_Change choice))).
  split; [reflexivity|]. split; [reflexivity|].
  unfold Apply_canonical. now destruct (Apply_in _ _ w).
Qed.

(** What a call of [Apply] on [Example.choice_A] comes to. *)
Lemma Apply_choice_A (w w' : World) (out : exec (option error)) :
  Apply w Example.choice_A w' out →
  Apply_in [("Money"%string, [0.5; 0]%float)]
           [("Legislation"%string, [0; 100]%float)] w = (w', out).
Proof.
  intros (resources & powers & Hres & Hpow & Hrun).
  apply order_singleton in Hres, Hpow. now subst.
Qed.

(** C1 as the specification states it fails: on the initial world, with a
    change that halves ["Money"] and has a power delta of one component,
    the call does not return an error, it panics, and ["Money"] has been
    halved by then. *)
Lemma Apply_rejects_malformed_counterexample :
  ¬ (∀ (w : World) (choice : Choice) (w' : World) (out : exec (option error)),
       malformed_delta choice →
       Apply w choice w' out →
       (∃ err, out = Done (Some err)) ∧ w' = w).
Proof.
  intros Hclaim.
  destruct (Hclaim Example.world Example.choice_one_component
                   Example.world_at_panic (Panics (IndexOutOfRange 1 1)))
    as [[err Herr] _].
  - exists "Military"%string, [0.5%float]. split; [right; reflexivity | cbn; lia].
  - exists [("Money"%string, [0.5; 0]%float)], [("Military"%string, [0.5]%float)].
    split; [vm_compute; reflexivity|].
    split; [vm_compute; reflexivity|].
    vm_compute. reflexivity.
  - discriminate Herr.
Qed.

(** The world is not the one before the call, whatever the iteration
    order. *)
Lemma Apply_one_component_mutates (w' : World) (out : exec (option error)) :
  Apply Example.world Example.choice_one_component w' out →
  out = Panics (IndexOutOfRange 1 1) ∧
  map_read (World_Resources w') "Money" = 2000 ∧
  map_read (World_Resources Example.world) "Money" = 4000.
Proof.
  intros (resources & powers & Hres & Hpow & Hrun).
  apply order_singleton in Hres, Hpow. subst.
  vm_compute in Hrun. injection Hrun as <- <-. now vm_compute.
Qed.

(** A third component goes unnoticed. *)
Lemma Apply_three_components (w' : World) (out : exec (option error)) :
  Apply Example.world Example.choice_three_components w' out →
  out = Done None ∧ map_read (World_Resources w') "Money" = 2000.
Proof.
  intros (resources & powers & Hres & Hpow & Hrun).
  apply order_singleton in Hres. apply order_empty in Hpow; [|reflexivity].
  subst. vm_compute in Hrun. injection Hrun as <- <-. now vm_compute.
Qed.

Lemma Apply_never_rejects_witness :
  ∃ i len, @Panics (option error) (IndexOutOfRange 1 1)
             = Panics (IndexOutOfRange i len) ∧ (len < 2)%nat.
Proof.
  refine (proj1 (proj2 (proj2
            (Apply_never_rejects Example.world Example.choice_one_component
               Example.world_at_panic (Panics (IndexOutOfRange 1 1)) _)))
            _ _ _).
  - exists [("Money"%string, [0.5; 0]%float)], [("Military"%string, [0.5]%float)].
    split; [vm_compute; reflexivity|].
    split; [vm_compute; reflexivity|].
    vm_compute. reflexivity.
  - exists "Military"%string, [0.5%float].
    split; [right; reflexivity | cbn; lia].
  - eexists; reflexivity.
  - eexists; reflexivity.
Defined.

Lemma Apply_frame_witness :
  map_entry (World_Powers Example.world_after) "Military"
    = map_entry (World_Powers Example.world) "Military" ∧
  (Example.world = Example.world ∧ Done None = @Done (option error) None).
Proof.
  split.
  - refine (proj1 (proj2 (Apply_frame Example.world Example.choice_A
                            Example.world_after (Done None) _))
              "Military"%string _).
    + exists [("Money"%string, [0.5; 0]%float)],
             [("Legislation"%string, [0; 100]%float)].
      split; [vm_compute; reflexivity|].
      split; [vm_compute; reflexivity|].
      vm_compute. reflexivity.
    + vm_compute. reflexivity.
  - refine (proj2 (proj2 (Apply_frame Example.world
                            (mkChoice "Accept" (mkChange ∅ ∅))
                            Example.world (Done None) _)) _ _).
    + exists [], []. split; [vm_compute; reflexivity|].
      split; [vm_compute; reflexivity|]. reflexivity.
    + reflexivity.
    + reflexivity.
Defined.

(** ** The acceptance scenario *)

(** One candidate can only be sorted one way. *)
Lemma sort_one (sort_Sort : CandidateRanking → CandidateRanking)
    (c : CandidateDecision) :
  (∀ data, sort_Sort data ≡ₚ data) → sort_Sort [c] = [c].
Proof.
  intros Hperm. specialize (Hperm [c]). symmetry in Hperm.
  now apply Permutation_singleton_l in Hperm.
Qed.

(** C8 as the specification states it fails: applying [Choice A] to the
    initial world does not leave ["Legislation"] at 110. *)
Lemma acceptance_scenario_counterexample :
  ¬ (∀ (w' : World) (out : exec (option error)),
       Apply Example.world Example.choice_A w' out →
       map_read (World_Resources w') "Money" = 2000 ∧
       map_read (World_Powers w') "Legislation" = 110 ∧
       map_read (World_Powers w') "Military" = 90).
Proof.
  intros Hclaim.
  destruct (Hclaim _ _ (Apply_canonical_Apply Example.world Example.choice_A))
    as (_ & Hlegislation & _).
  vm_compute in Hlegislation. discriminate Hlegislation.
Qed.

(** C8, as the code has it. From the world [Money: 4000], [Military: 90],
    [Legislation: 10], with the one rule guarded by ["Money > 1000 and
    Military >= 90"], of weight 1, and a source that always returns 0, the
    engine offers ["Make putsch"] and nothing else, under any cap; applying
    [Choice A] returns [nil] and leaves [Money] at 2000, [Legislation] at
    100 (0 times 10, plus 100) and [Military] at 90. A new value is the
    old one times the multiplier, plus the additive part, rounded to the
    nearest integer, a half going away from zero. *)
Theorem acceptance_scenario
    (sort_Sort : CandidateRanking → CandidateRanking) (k : Z)
    (w' : World) (out : exec (option error)) :
  (∀ data, sort_Sort data ≡ₚ data) →
  Apply Example.world Example.choice_A w' out →
  Decisions sort_Sort Example.scenario (AlwaysReturn 0%float) Example.world k
    = (Done ([Example.make_putsch], None), AlwaysReturn 0%float) ∧
  Decision_Description Example.make_putsch = "Make putsch"%string ∧
  out = Done None ∧
  w' = Example.world_after ∧
  map_read (World_Resources w') "Money" = 2000 ∧
  map_read (World_Powers w') "Legislation" = 100 ∧
  map_read (World_Powers w') "Military" = 90 ∧
  (∀ old multiplier additive,
     updatedValue old [multiplier; additive]
       = Done (F64.to_int (F64.Round
                 (PrimFloat.add (PrimFloat.mul multiplier (F64.of_int old))
                                additive)))) ∧
  updatedValue 5 [0.5; 0]%float = Done 3 ∧
  updatedValue (-5) [0.5; 0]%float = Done (-3) ∧
  updatedValue 4 [0.5; 0.25]%float = Done 2.
Proof.
  intros Hperm Happly. split.
  { unfold Decisions. cbn [Example.scenario Rules].
    change (build_candidates [Example.putsch_rule] Example.world)
      with (Done ([mkCandidate 1%float Example.make_putsch], @None error)).
    cbn iota beta. rewrite (sort_one _ _ Hperm). cbn [sample].
    unfold Float64, Constant_Rand.
    change (PrimFloat.ltb 0 (Cand_Weight (mkCandidate 1 Example.make_putsch)))
      with true.
    cbn. now destruct (Z.of_nat 1 >? k). }
  apply Apply_choice_A in Happly. vm_compute in Happly.
  injection Happly as <- <-.
  repeat split; vm_compute; reflexivity.
Qed.

Lemma acceptance_scenario_witness :
  Decisions insertionSort Example.scenario (AlwaysReturn 0%float)
            Example.world 3
    = (Done ([Example.make_putsch], None), AlwaysReturn 0%float) ∧
  map_read (World_Powers Example.world_after) "Legislation" = 100.
Proof.
  pose proof (acceptance_scenario insertionSort 3 Example.world_after
                (Done None) insertionSort_Permutation) as Hscenario.
  assert (Happly : Apply Example.world Example.choice_A Example.world_after
                     (Done None)).
  { exists [("Money"%string, [0.5; 0]%float)],
           [("Legislation"%string, [0; 100]%float)].
    split; [vm_compute; reflexivity|].
    split; [vm_compute; reflexivity|].
    vm_compute. reflexivity. }
  destruct (Hscenario Happly) as (Hoffer & _ & _ & _ & _ & Hlegislation & _).
  exact (conj Hoffer Hlegislation).
Defined.

(** The boundary case of the cap: with a cap of 0 and both rules of
    [main] accepted at every draw, one decision comes back. *)
Example Decisions_cap_zero :
  (Decisions insertionSort Example.two_rules (AlwaysReturn 0%float)
             Example.world 0).1
    = Done ([Example.make_putsch], None).
Proof. vm_compute. reflexivity. Qed.

(** ** [Apply] twice *)

(** C9. [Apply] is not idempotent on deltas other than the identity:
    there are a world and a change, with a multiplier other than 1, for
    which the second application moves the world again. *)
Theorem Apply_not_idempotent :
  ∃ (w : World) (choice : Choice) (w1 w2 : World) name multiplier additive,
    Change_Resources (Choice_Change choice) !! name
      = Some [multiplier; additive] ∧
    PrimFloat.eqb multiplier 1%float = false ∧
    Apply w choice w1 (Done None) ∧
    Apply w1 choice w2 (Done None) ∧
    (∀ w' out, Apply w choice w' out → w' = w1) ∧
    (∀ w' out, Apply w1 choice w' out → w' = w2) ∧
    map_read (World_Resources w1) name ≠ map_read (World_Resources w2) name ∧
    w2 ≠ w1.
Proof.
  exists Example.world, Example.choice_A, Example.world_after,
         Example.world_after_twice, "Money"%string, 0.5%float, 0%float.
  assert (Hcanon : ∀ w, ∃ resources powers,
            resources ≡ₚ map_to_list
              (Change_Resources (Choice_Change Example.choice_A)) ∧
            powers ≡ₚ map_to_list
              (Change_Powers (Choice_Change Example.choice_A)) ∧
            Apply_in resources powers w
              = Apply_in [("Money"%string, [0.5; 0]%float)]
                         [("Legislation"%string, [0; 100]%float)] w).
  { intros w. eexists _, _. split; [|split; [|reflexivity]];
      vm_compute; reflexivity. }
  split; [reflexivity|]. split; [reflexivity|].
  split; [|split; [|split; [|split; [|split]]]].
  - destruct (Hcanon Example.world) as (rs & ps & Hr & Hp & Hrun).
    exists rs, ps. split; [exact Hr|]. split; [exact Hp|].
    rewrite Hrun. vm_compute. reflexivity.
  - destruct (Hcanon Example.world_after) as (rs & ps & Hr & Hp & Hrun).
    exists rs, ps. split; [exact Hr|]. split; [exact Hp|].
    rewrite Hrun. vm_compute. reflexivity.
  - intros w' out Happly%Apply_choice_A. vm_compute in Happly.
    now injection Happly as <- _.
  - intros w' out Happly%Apply_choice_A. vm_compute in Happly.
    now injection Happly as <- _.
  - vm_compute. discriminate.
  - intros Heq.
    apply (f_equal (λ w, map_read (World_Resources w) "Money")) in Heq.
    vm_compute in Heq. discriminate Heq.
Qed.

(** With a weight that is not a number the ranking is not in order, and
    neither is what comes out of it: the decision of weight 3 precedes the
    one of weight 1. *)
Example Decisions_NaN_weight :
  (Decisions insertionSort Example.nan_weight (AlwaysReturn 0%float)
             Example.world 3).1
    = Done ([Example.quit; Example.make_putsch], None).
Proof. vm_compute. reflexivity. Qed.

(** ** The properties on the examples *)

Lemma draws_Constant (x : float) (n : nat) :
  draws n (AlwaysReturn x) = replicate n x.
Proof. induction n as [|n IH]; cbn; [reflexivity | now rewrite IH]. Qed.

Lemma draws_Tape_nil (n : nat) : draws n (Tape []) = replicate n 0%float.
Proof. induction n as [|n IH]; cbn; [reflexivity | now rewrite IH]. Qed.

Lemma Constant_in_unit_interval (x : float) :
  F64.in_unit_interval x = true →
  ∀ n, Forall (λ y, F64.in_unit_interval y = true) (draws n (AlwaysReturn x)).
Proof.
  intros Hx n. rewrite draws_Constant. apply Forall_forall.
  now intros y [-> _]%elem_of_replicate.
Qed.

Lemma Decisions_length_cap_witness :
  0 ≤ 0 ∧
  Decisions insertionSort Example.two_rules (AlwaysReturn 0%float)
            Example.world 0
    = (Done ([Example.make_putsch], None), AlwaysReturn 0%float) ∧
  Z.of_nat (length [Example.make_putsch]) ≤ 0 + 1.
Proof.
  assert (Hrun : Decisions insertionSort Example.two_rules
                   (AlwaysReturn 0%float) Example.world 0
                 = (Done ([Example.make_putsch], None), AlwaysReturn 0%float))
    by (vm_compute; reflexivity).
  split; [lia|]. split; [exact Hrun|].
  apply (Decisions_length_cap insertionSort Example.two_rules
           (AlwaysReturn 0%float) Example.world 0 _ None (AlwaysReturn 0%float));
    [lia | exact Hrun].
Defined.

Lemma Decisions_guard_error_witness :
  Decisions insertionSort Example.failing (AlwaysReturn 0%float)
            Example.world 3
    = (Done ([], Some "invalid operation"%string), AlwaysReturn 0%float).
Proof.
  apply (Decisions_guard_error insertionSort Example.failing
           (AlwaysReturn 0%float) Example.world 3
           [Example.putsch_rule]
           (mkRule Example.guard_failing 0.5%float Example.wait)
           [mkRule Example.guard_true 1%float Example.quit]
           false).
  - reflexivity.
  - constructor; [|constructor]. exists true. reflexivity.
  - reflexivity.
Defined.

Lemma Decisions_deterministic_witness :
  (Decisions insertionSort Example.mixed (AlwaysReturn 0%float)
             Example.world 3).1
    = (Decisions insertionSort Example.mixed (Tape []) Example.world 3).1.
Proof.
  apply Decisions_deterministic.
  intros n. now rewrite draws_Constant, draws_Tape_nil.
Defined.

Lemma Decisions_skips_false_guards_witness :
  Example.wait ∉ [Example.quit; Example.make_putsch].
Proof.
  apply (Decisions_skips_false_guards insertionSort insertionSort_Permutation
           Example.mixed (AlwaysReturn 0.25%float) Example.world 3
           [Example.quit; Example.make_putsch] (AlwaysReturn 0.25%float)
           Example.wait).
  - now apply Constant_in_unit_interval.
  - vm_compute. reflexivity.
  - intros rule Hrule Hdecision. cbn [Example.mixed Rules] in Hrule.
    repeat (apply elem_of_cons in Hrule as [->|Hrule]);
      [discriminate Hdecision | reflexivity | discriminate Hdecision |].
    inversion Hrule.
Defined.

Lemma Decisions_ascending_witness :
  ∃ candidates accepted,
    build_candidates (Rules Example.mixed) Example.world
      = Done (candidates, None) ∧
    StronglySorted
      (λ a b, PrimFloat.leb (Cand_Weight a) (Cand_Weight b) = true)
      (insertionSort candidates) ∧
    sublist accepted (insertionSort candidates) ∧
    [Example.quit; Example.make_putsch] = Cand_Decision <$> accepted ∧
    StronglySorted
      (λ a b, PrimFloat.leb (Cand_Weight a) (Cand_Weight b) = true)
      accepted.
Proof.
  apply (Decisions_ascending insertionSort insertionSort_Permutation
           insertionSort_ascending Example.mixed (AlwaysReturn 0.25%float)
           Example.world 3 _ (AlwaysReturn 0.25%float)).
  - repeat constructor.
  - vm_compute. reflexivity.
Defined.

(** * The rest of the program *)

(** ** [CandidateRanking] as a [sort.Interface] *)

Lemma ltb_irrefl (x : float) : PrimFloat.ltb x x = false.
Proof.
  destruct (PrimFloat.ltb x x) eqn:E; [|reflexivity].
  now rewrite (F64_order.ltb_asym _ _ E) in E.
Qed.

Lemma ltb_trans (x y z : float) :
  PrimFloat.ltb x y = true → PrimFloat.ltb y z = true →
  PrimFloat.ltb x z = true.
Proof.
  rewrite !F64_order.ltb_lex. intros (Hx & _ & Hxy) (_ & Hz & Hyz).
  repeat split; try assumption. exact (F64_order.lex_lt_trans _ _ _ Hxy Hyz).
Qed.

(** [==] of float64 on numbers: neither is below the other. *)
Lemma eqb_incomparable (x y : float) :
  F64.is_nan x = false → F64.is_nan y = false →
  (PrimFloat.eqb x y = true ↔
   PrimFloat.ltb x y = false ∧ PrimFloat.ltb y x = false).
Proof.
  intros Hx Hy.
  rewrite FloatAxioms.eqb_spec, !ltb_spec. unfold SFeqb, SFltb.
  apply F64_order.is_nan_false in Hx, Hy.
  destruct (F64_order.SFcompare_lex _ _ Hx Hy) as (c & Hc & Hlt & Hgt).
  destruct (F64_order.SFcompare_lex _ _ Hy Hx) as (c' & Hc' & Hlt' & Hgt').
  rewrite Hc, Hc'. split.
  - intros H. destruct c; try discriminate. split; [reflexivity|].
    destruct c'; try reflexivity.
    assert (Eq = Gt) by (apply Hgt, Hlt'; reflexivity). discriminate.
  - intros [H1 H2]. destruct c; try reflexivity; try discriminate.
    assert (c' = Lt) by (apply Hlt', Hgt; reflexivity). subst c'. discriminate.
Qed.

(** X1. [Less] is a strict order on candidates of any weight, NaN
    included: no candidate is less than itself, two candidates are never
    each less than the other, and less-than chains. *)
Theorem Less_strict_order (a b c : CandidateDecision) :
  Less a a = false ∧
  (Less a b = true → Less b a = false) ∧
  (Less a b = true → Less b c = true → Less a c = true).
Proof.
  unfold Less. split; [apply ltb_irrefl|]. split.
  - apply F64_order.ltb_asym.
  - apply ltb_trans.
Qed.

Lemma Less_strict_order_witness :
  Less (Example.candidate 0.5) (Example.candidate 0.5) = false ∧
  Less (Example.candidate 1) (Example.candidate 0.5) = false ∧
  Less (Example.candidate 0.5) (Example.candidate 3) = true.
Proof.
  destruct (Less_strict_order (Example.candidate 0.5) (Example.candidate 1)
              (Example.candidate 3)) as (_ & _ & Htrans).
  destruct (Less_strict_order (Example.candidate 0.5) (Example.candidate 1)
              (Example.candidate 0.5)) as (Hirrefl & Hasym & _).
  split; [exact Hirrefl|]. split.
  - apply Hasym. reflexivity.
  - apply Htrans; reflexivity.
Defined.

(** X2. What [sort.Sort] asks of [Less] holds on weights that are
    numbers: being not-less is transitive, and two candidates neither of
    which is less than the other have equal weights. A NaN weight breaks
    it: such a candidate is not-less either way against every other one. *)
Theorem Less_weak_order :
  (∀ a b c,
     F64.is_nan (Cand_Weight a) = false →
     F64.is_nan (Cand_Weight b) = false →
     F64.is_nan (Cand_Weight c) = false →
     (Less a b = false → Less b c = false → Less a c = false) ∧
     (Less a b = false ∧ Less b a = false ↔
      PrimFloat.eqb (Cand_Weight a) (Cand_Weight b) = true)) ∧
  (∀ a b, F64.is_nan (Cand_Weight b) = true →
          Less a b = false ∧ Less b a = false) ∧
  (∃ a b c, Less a b = false ∧ Less b c = false ∧ Less a c = true).
Proof.
  split; [|split].
  - intros a b c Ha Hb Hc. unfold Less. split.
    + now apply F64_order.ltb_false_trans.
    + symmetry. now apply eqb_incomparable.
  - intros a b Hb. unfold Less.
    split; (match goal with |- ?t = false => destruct t eqn:E end;
            [|reflexivity]); apply F64_order.ltb_is_nan in E; destruct E;
      congruence.
  - exists (Example.candidate 1), (Example.candidate nan), (Example.candidate 3).
    repeat split; reflexivity.
Qed.

Lemma Less_weak_order_witness :
  Less (Example.candidate 3) (Example.candidate 0.5) = false.
Proof.
  destruct Less_weak_order as (Hnumbers & _ & _).
  destruct (Hnumbers (Example.candidate 3) (Example.candidate 1)
              (Example.candidate 0.5) eq_refl eq_refl eq_refl) as (Htrans & _).
  apply Htrans; reflexivity.
Defined.

Lemma ranking_at_Done (c : CandidateRanking) (i : nat) (x : CandidateDecision) :
  c !! i = Some x → ranking_at c i = Done x.
Proof. intros H. unfold ranking_at. now rewrite H. Qed.

Lemma Swap_Done (c : CandidateRanking) (i j : nat) (c' : CandidateRanking) :
  Swap c i j = Done c' →
  ∃ ci cj, c !! i = Some ci ∧ c !! j = Some cj ∧
           c' = <[j := ci]> (<[i := cj]> c).
Proof.
  unfold Swap, ranking_at, CandidateRanking in *.
  destruct (c !! j) as [cj|]; cbn; [|discriminate].
  destruct (c !! i) as [ci|]; cbn; [|discriminate].
  intros [= <-]. now exists ci, cj.
Qed.

(** An index past the end makes [Swap] panic; [c[j]] is read first. *)
Lemma Swap_out_of_range (c : CandidateRanking) (i j : nat) :
  (length c ≤ i ∨ length c ≤ j)%nat →
  ∃ k, Swap c i j = Panics (IndexOutOfRange k (length c)) ∧ (k = i ∨ k = j).
Proof.
  intros Hout. unfold Swap, ranking_at.
  destruct (c !! j) as [cj|] eqn:Hj; cbn; [|eauto].
  destruct (c !! i) as [ci|] eqn:Hi; cbn; [|eauto].
  apply lookup_lt_Some in Hi, Hj. lia.
Qed.

(** X3. Within the slice, [Swap(i, j)] exchanges the two elements and
    leaves every other one in place, the length is the same, and a second
    [Swap(i, j)] gives the slice back. *)
Theorem Swap_exchanges (c : CandidateRanking) (i j : nat) :
  (i < length c)%nat → (j < length c)%nat →
  ∃ c',
    Swap c i j = Done c' ∧
    Len c' = Len c ∧
    c' !! i = c !! j ∧
    c' !! j = c !! i ∧
    (∀ k, k ≠ i → k ≠ j → c' !! k = c !! k) ∧
    Swap c' i j = Done c.
Proof.
  unfold Len, Swap, CandidateRanking in *. intros Hi Hj.
  destruct (lookup_lt_is_Some_2 c i Hi) as [ci Hci].
  destruct (lookup_lt_is_Some_2 c j Hj) as [cj Hcj].
  set (c' := <[j := ci]> (<[i := cj]> c)).
  assert (Hlen : length c' = length c)
    by (unfold c'; now rewrite !length_insert).
  assert (Hc'j : c' !! j = Some ci).
  { unfold c'. apply list_lookup_insert_eq. now rewrite length_insert. }
  assert (Hc'i : c' !! i = Some cj).
  { unfold c'. destruct (decide (j = i)) as [->|Hne].
    - rewrite list_lookup_insert_eq by now rewrite length_insert. congruence.
    - rewrite list_lookup_insert_ne by exact Hne.
      now apply list_lookup_insert_eq. }
  exists c'. split; [|split; [|split; [|split; [|split]]]].
  - now rewrite (ranking_at_Done _ _ _ Hcj), (ranking_at_Done _ _ _ Hci).
  - now rewrite Hlen.
  - congruence.
  - congruence.
  - intros k Hki Hkj. unfold c'.
    now rewrite !list_lookup_insert_ne by congruence.
  - rewrite (ranking_at_Done _ _ _ Hc'j), (ranking_at_Done _ _ _ Hc'i). cbn.
    f_equal. apply list_eq. intros k.
    destruct (decide (k = j)) as [->|Hkj].
    + rewrite list_lookup_insert_eq by now rewrite length_insert, Hlen.
      congruence.
    + rewrite list_lookup_insert_ne by congruence.
      destruct (decide (k = i)) as [->|Hki].
      * rewrite list_lookup_insert_eq by now rewrite Hlen. congruence.
      * rewrite list_lookup_insert_ne by congruence. unfold c'.
        now rewrite !list_lookup_insert_ne by congruence.
Qed.

Lemma Swap_exchanges_witness :
  ∃ c',
    Swap (Example.candidate <$> [3; 1; 2]%float) 0 2 = Done c' ∧
    Len c' = Len (Example.candidate <$> [3; 1; 2]%float) ∧
    c' !! 0%nat = (Example.candidate <$> [3; 1; 2]%float) !! 2%nat ∧
    c' !! 2%nat = (Example.candidate <$> [3; 1; 2]%float) !! 0%nat ∧
    (∀ k, k ≠ 0%nat → k ≠ 2%nat →
          c' !! k = (Example.candidate <$> [3; 1; 2]%float) !! k) ∧
    Swap c' 0 2 = Done (Example.candidate <$> [3; 1; 2]%float).
Proof.
  apply (Swap_exchanges (Example.candidate <$> [3; 1; 2]%float) 0 2);
    cbn; lia.
Defined.

(** X4. However many [Swap] calls a sort makes, if none panics the slice
    it leaves is a permutation of the one it was given, of the same
    length. *)
Theorem Swaps_Permutation (calls : list (nat * nat)) :
  ∀ c c', Swaps c calls = Done c' → c' ≡ₚ c ∧ Len c' = Len c.
Proof.
  unfold CandidateRanking.
  induction calls as [|[i j] calls IH]; intros c c'; cbn [Swaps].
  - intros [= <-]. split; reflexivity.
  - destruct (Swap c i j) as [c1|p] eqn:Hswap; cbn; [|discriminate].
    intros Hrest. destruct (IH _ _ Hrest) as [Hperm Hlen].
    destruct (Swap_Done _ _ _ _ Hswap) as (ci & cj & Hci & Hcj & ->).
    split.
    + rewrite Hperm. exact (Permutation_insert_swap c i j ci cj Hci Hcj).
    + rewrite Hlen. unfold Len, CandidateRanking. now rewrite !length_insert.
Qed.

Lemma Swaps_Permutation_witness :
  Example.candidate <$> [1; 2; 3]%float
    ≡ₚ Example.candidate <$> [3; 1; 2]%float ∧
  Len (Example.candidate <$> [1; 2; 3]%float)
    = Len (Example.candidate <$> [3; 1; 2]%float).
Proof.
  apply (Swaps_Permutation [(1, 0); (2, 1)]%nat). reflexivity.
Defined.

(** ** More on [Scenario.Decisions] *)

Lemma ltb_leb_trans (x y z : float) :
  PrimFloat.ltb x y = true → PrimFloat.leb y z = true →
  PrimFloat.ltb x z = true.
Proof.
  rewrite F64_order.leb_lex, !F64_order.ltb_lex.
  intros (Hx & Hy & H1) (_ & Hz & H2). repeat split; try assumption.
  destruct (F64.rank (Prim2SF x)) as [[? ?] ?],
           (F64.rank (Prim2SF y)) as [[? ?] ?],
           (F64.rank (Prim2SF z)) as [[? ?] ?].
  unfold F64.lex_lt in *. lia.
Qed.

Lemma draws_tail {R} `{Rand R} (P : float → Prop) (r : R) :
  (∀ n, Forall P (draws n r)) →
  P (Float64 r).1 ∧ ∀ n, Forall P (draws n (Float64 r).2).
Proof.
  intros Hall. split.
  - specialize (Hall 1%nat). cbn in Hall. destruct (Float64 r) as [x r'].
    now apply Forall_cons in Hall as [Hx _].
  - intros n. specialize (Hall (S n)). cbn in Hall.
    destruct (Float64 r) as [x r']. now apply Forall_cons in Hall as [_ Hn].
Qed.

Section Sampling_more.

Context {R : Type} `{Rand R}.

(** The loop makes one draw per candidate it visits: at least as many as
    it accepts, and one per candidate when it is not cut short. *)
Lemma sample_after_draws (candidates : list CandidateDecision) :
  ∀ (r : R) decisions k,
    ∃ n, (n ≤ length candidates)%nat ∧
         (sample candidates r decisions k).2 = after_draws n r ∧
         (length (sample candidates r decisions k).1 ≤ length decisions + n)%nat ∧
         (Z.of_nat (length (sample candidates r decisions k).1) ≤ k →
          n = length candidates).
Proof.
  induction candidates as [|c candidates IH]; intros r ds k; cbn [sample].
  - exists 0%nat. cbn. repeat split; lia.
  - destruct (Float64 r) as [x r'] eqn:Hdraw.
    assert (Hr' : ∀ n, after_draws (S n) r = after_draws n r')
      by (intros n; cbn; now rewrite Hdraw).
    destruct (PrimFloat.ltb x (Cand_Weight c)).
    + destruct (Z.gtb_spec (Z.of_nat (length (ds ++ [Cand_Decision c]))) k)
        as [Hgt|Hle].
      * exists 1%nat. rewrite Hr'. cbn [fst snd after_draws length].
        rewrite length_app in *. cbn [length] in *.
        split; [lia|]. split; [reflexivity|]. split; lia.
      * destruct (IH r' (ds ++ [Cand_Decision c]) k)
          as (n & Hn & Hst & Hlen & Hall).
        exists (S n). rewrite Hr'. rewrite length_app in Hlen.
        cbn [length] in *.
        split; [lia|]. split; [exact Hst|]. split; [lia|].
        intros Hk. f_equal. now apply Hall.
    + destruct (IH r' ds k) as (n & Hn & Hst & Hlen & Hall).
      exists (S n). rewrite Hr'. cbn [length].
      split; [lia|]. split; [exact Hst|]. split; [lia|].
      intros Hk. f_equal. now apply Hall.
Qed.

(** The bound on the length for any cap: a negative cap stops the loop at
    the first decision accepted. *)
Lemma sample_length_any (candidates : list CandidateDecision) :
  ∀ (r : R) decisions k,
    Z.of_nat (length decisions) ≤ Z.max k 0 →
    Z.of_nat (length (sample candidates r decisions k).1) ≤ Z.max k 0 + 1.
Proof.
  induction candidates as [|c candidates IH]; intros r ds k Hk; cbn [sample].
  - cbn. lia.
  - destruct (Float64 r) as [x r'].
    destruct (PrimFloat.ltb x (Cand_Weight c)); [|now apply IH].
    destruct (Z.gtb_spec (Z.of_nat (length (ds ++ [Cand_Decision c]))) k)
      as [Hgt|Hle].
    + cbn. rewrite length_app in *. cbn in *. lia.
    + apply IH. rewrite length_app in *. cbn in *. lia.
Qed.

(** When the loop is not cut short, a candidate whose weight is 1 or more
    is accepted whatever the source draws in [[0,1)]. *)
Lemma sample_sure (candidates : list CandidateDecision) :
  ∀ (r : R) decisions k c,
    (∀ n, Forall (λ x, F64.in_unit_interval x = true) (draws n r)) →
    Z.of_nat (length (sample candidates r decisions k).1) ≤ k →
    c ∈ candidates →
    PrimFloat.leb 1%float (Cand_Weight c) = true →
    Cand_Decision c ∈ (sample candidates r decisions k).1.
Proof.
  induction candidates as [|c0 candidates IH]; intros r ds k c Hdraws Hlen Hc Hw.
  - inversion Hc.
  - destruct (draws_tail _ _ Hdraws) as [Hx Hrest].
    pose proof (sample_accepted (c0 :: candidates) r ds k)
      as (acc0 & Hprefix0 & _).
    cbn [sample] in *. destruct (Float64 r) as [x r']. cbn [fst snd] in *.
    destruct (PrimFloat.ltb x (Cand_Weight c0)) eqn:Hlt.
    + destruct (Z.gtb_spec (Z.of_nat (length (ds ++ [Cand_Decision c0]))) k)
        as [Hgt|Hle]; [cbn in Hlen; lia|].
      apply elem_of_cons in Hc as [->|Hc]; [|now apply IH].
      destruct (sample_accepted candidates r' (ds ++ [Cand_Decision c0]) k)
        as (acc & -> & _).
      rewrite !elem_of_app. left. right. left.
    + apply elem_of_cons in Hc as [->|Hc]; [|now apply IH].
      unfold F64.in_unit_interval in Hx. apply andb_prop in Hx as [_ Hx1].
      rewrite (ltb_leb_trans _ _ _ Hx1 Hw) in Hlt. discriminate.
Qed.

End Sampling_more.

(** Every rule has its candidate when the first loop ends well. *)
Lemma build_candidates_complete (world : World) (rules : list Rule)
    (candidates : list CandidateDecision) (rule : Rule) :
  build_candidates rules world = Done (candidates, None) →
  rule ∈ rules →
  ∃ c, c ∈ candidates ∧
       Evaluate rule world = Done (Cand_Weight c, None) ∧
       Cand_Decision c = Rule_Decision rule.
Proof.
  intros Hb%build_candidates_Forall2 Hrule.
  induction Hb as [|rule' c rules candidates Hhd _ IH].
  - inversion Hrule.
  - apply elem_of_cons in Hrule as [->|Hrule].
    + exists c. split; [left | exact Hhd].
    + destruct (IH Hrule) as (c' & Hc' & Hev). exists c'. split; [now right | exact Hev].
Qed.

Lemma build_candidates_decisions (world : World) (rules : list Rule)
    (candidates : list CandidateDecision) :
  build_candidates rules world = Done (candidates, None) →
  Cand_Decision <$> candidates = Rule_Decision <$> rules ∧
  length candidates = length rules.
Proof.
  intros Hb%build_candidates_Forall2.
  induction Hb as [|rule c rules candidates [_ Hdec] _ [IHd IHl]];
    [split; reflexivity|].
  cbn. now rewrite Hdec, IHd, IHl.
Qed.

(** X5. [Decisions] draws once per candidate it visits and never
    otherwise: the source is left as after [n] draws, with [n] at least the
    number of decisions returned and at most the number of rules, equal to
    the number of rules when the list returned does not exceed the cap;
    a call that ends in an error or a panic has drawn nothing. *)
Theorem Decisions_draws (sort_Sort : CandidateRanking → CandidateRanking)
    {R : Type} `{Rand R} (s : Scenario) (r : R) (world : World) (k : Z)
    (out : exec (list Decision * option error)) (r' : R) :
  (∀ data, sort_Sort data ≡ₚ data) →
  Decisions sort_Sort s r world k = (out, r') →
  ∃ n, (n ≤ length (Rules s))%nat ∧
       r' = after_draws n r ∧
       match out with
       | Done (decisions, None) =>
           (length decisions ≤ n)%nat ∧
           (Z.of_nat (length decisions) ≤ k → n = length (Rules s))
       | _ => n = 0%nat
       end.
Proof.
  intros Hperm. unfold Decisions.
  destruct (build_candidates (Rules s) world) as [[candidates [e|]]|p] eqn:Hb.
  - intros [= <- <-]. exists 0%nat. repeat split. lia.
  - destruct (build_candidates_decisions _ _ _ Hb) as [_ Hlen].
    pose proof (Permutation_length (Hperm candidates)) as Hsorted.
    destruct (sample_after_draws (sort_Sort candidates) r [] k)
      as (n & Hn & Hst & Hds & Hall).
    destruct (sample (sort_Sort candidates) r [] k) as [ds r''].
    cbn [fst snd length] in *. intros [= <- <-].
    exists n. split; [lia|]. split; [exact Hst|]. split; [lia|].
    intros Hk. rewrite (Hall Hk). lia.
  - intros [= <- <-]. exists 0%nat. repeat split. lia.
Qed.

Lemma Decisions_draws_witness :
  ∃ n, (n ≤ length (Rules Example.mixed))%nat ∧
       AlwaysReturn 0.25%float = after_draws n (AlwaysReturn 0.25%float) ∧
       (length [Example.quit; Example.make_putsch] ≤ n)%nat ∧
       (Z.of_nat (length [Example.quit; Example.make_putsch]) ≤ 3 →
        n = length (Rules Example.mixed)).
Proof.
  apply (Decisions_draws insertionSort Example.mixed (AlwaysReturn 0.25%float)
           Example.world 3
           (Done ([Example.quit; Example.make_putsch], None))
           (AlwaysReturn 0.25%float) insertionSort_Permutation).
  vm_compute. reflexivity.
Defined.

(** X6. The list [Decisions] returns is made of decisions of the
    scenario's rules, none more often than the rules carry it: it is
    contained, with multiplicity, in the list of the rules' decisions. *)
Theorem Decisions_from_rules (sort_Sort : CandidateRanking → CandidateRanking)
    {R : Type} `{Rand R} (s : Scenario) (r : R) (world : World) (k : Z)
    (decisions : list Decision) (r' : R) :
  (∀ data, sort_Sort data ≡ₚ data) →
  Decisions sort_Sort s r world k = (Done (decisions, None), r') →
  decisions ⊆+ Rule_Decision <$> Rules s.
Proof.
  intros Hperm. unfold Decisions.
  destruct (build_candidates (Rules s) world) as [[candidates [e|]]|p] eqn:Hb;
    try discriminate.
  destruct (build_candidates_decisions _ _ _ Hb) as [Hdecisions _].
  destruct (sample_accepted (sort_Sort candidates) r [] k)
    as (accepted & Hs & Hsub & _).
  destruct (sample (sort_Sort candidates) r [] k) as [ds r''].
  cbn in Hs. subst ds. intros [= <- _].
  rewrite <- Hdecisions, <- (Hperm candidates).
  apply fmap_submseteq. now apply sublist_submseteq.
Qed.

Lemma Decisions_from_rules_witness :
  [Example.quit; Example.make_putsch] ⊆+ Rule_Decision <$> Rules Example.mixed.
Proof.
  apply (Decisions_from_rules insertionSort Example.mixed
           (AlwaysReturn 0.25%float) Example.world 3 _
           (AlwaysReturn 0.25%float) insertionSort_Permutation).
  vm_compute. reflexivity.
Defined.

(** X7. A negative cap does not mean "no decision": the loop stops at the
    first decision it accepts, so the list has at most one element, as
    with a cap of 0. *)
Theorem Decisions_negative_cap (sort_Sort : CandidateRanking → CandidateRanking)
    {R : Type} `{Rand R} (s : Scenario) (r : R) (world : World) (k : Z)
    (decisions : list Decision) (err : option error) (r' : R) :
  k < 0 →
  Decisions sort_Sort s r world k = (Done (decisions, err), r') →
  (length decisions ≤ 1)%nat.
Proof.
  intros Hk. unfold Decisions.
  destruct (build_candidates (Rules s) world) as [[candidates [e|]]|p];
    [intros [= <- _ _]; cbn; lia | | discriminate].
  pose proof (sample_length_any (sort_Sort candidates) r [] k) as Hlen.
  destruct (sample (sort_Sort candidates) r [] k) as [ds r''].
  intros [= <- _ _]. cbn in Hlen. lia.
Qed.

Lemma Decisions_negative_cap_witness :
  (length [Example.make_putsch] ≤ 1)%nat.
Proof.
  apply (Decisions_negative_cap insertionSort Example.two_rules
           (AlwaysReturn 0%float) Example.world (-2) _ None
           (AlwaysReturn 0%float)); [lia | vm_compute; reflexivity].
Defined.

(** X8. With draws in [[0,1)], a rule whose guard passes and whose
    weight is 1 or more is offered for sure, unless the cap has cut the
    loop short (the list is then longer than the cap). *)
Theorem Decisions_offers_sure_rules
    (sort_Sort : CandidateRanking → CandidateRanking)
    {R : Type} `{Rand R} (s : Scenario) (r : R) (world : World) (k : Z)
    (decisions : list Decision) (r' : R) (rule : Rule) :
  (∀ data, sort_Sort data ≡ₚ data) →
  (∀ n, Forall (λ x, F64.in_unit_interval x = true) (draws n r)) →
  Decisions sort_Sort s r world k = (Done (decisions, None), r') →
  Z.of_nat (length decisions) ≤ k →
  rule ∈ Rules s →
  Pass (Rule_Guard rule) world = Done (true, None) →
  PrimFloat.leb 1%float (Weight rule) = true →
  Rule_Decision rule ∈ decisions.
Proof.
  intros Hperm Hdraws Hrun Hlen Hrule Hpass Hweight. unfold Decisions in Hrun.
  destruct (build_candidates (Rules s) world) as [[candidates [e|]]|p] eqn:Hb;
    try discriminate.
  destruct (build_candidates_complete _ _ _ _ Hb Hrule) as (c & Hc & Hev & Hdec).
  assert (Hw : Cand_Weight c = Weight rule).
  { unfold Evaluate in Hev. rewrite Hpass in Hev. cbn in Hev. congruence. }
  pose proof (sample_sure (sort_Sort candidates) r [] k c Hdraws) as Hsure.
  destruct (sample (sort_Sort candidates) r [] k) as [ds r''].
  injection Hrun as <- _. rewrite <- Hdec. apply Hsure.
  - exact Hlen.
  - now rewrite (Hperm candidates).
  - now rewrite Hw.
Qed.

Lemma Decisions_offers_sure_rules_witness :
  Rule_Decision Example.putsch_rule ∈ [Example.quit; Example.make_putsch].
Proof.
  apply (Decisions_offers_sure_rules insertionSort Example.mixed
           (AlwaysReturn 0.25%float) Example.world 3 _
           (AlwaysReturn 0.25%float) Example.putsch_rule
           insertionSort_Permutation).
  - now apply Constant_in_unit_interval.
  - vm_compute. reflexivity.
  - cbn. lia.
  - cbn. right. right. left.
  - reflexivity.
  - reflexivity.
Defined.

(** With a non-negative cap such a rule keeps the list from being empty. *)
Lemma Decisions_not_empty (sort_Sort : CandidateRanking → CandidateRanking)
    {R : Type} `{Rand R} (s : Scenario) (r : R) (world : World) (k : Z)
    (decisions : list Decision) (r' : R) (rule : Rule) :
  (∀ data, sort_Sort data ≡ₚ data) →
  (∀ n, Forall (λ x, F64.in_unit_interval x = true) (draws n r)) →
  0 ≤ k →
  Decisions sort_Sort s r world k = (Done (decisions, None), r') →
  rule ∈ Rules s →
  Pass (Rule_Guard rule) world = Done (true, None) →
  PrimFloat.leb 1%float (Weight rule) = true →
  decisions ≠ [].
Proof.
  intros Hperm Hdraws Hk Hrun Hrule Hpass Hweight ->. unfold Decisions in Hrun.
  destruct (build_candidates (Rules s) world) as [[candidates [e|]]|p] eqn:Hb;
    try discriminate.
  destruct (build_candidates_complete _ _ _ _ Hb Hrule) as (c & Hc & Hev & Hdec).
  assert (Hw : Cand_Weight c = Weight rule).
  { unfold Evaluate in Hev. rewrite Hpass in Hev. cbn in Hev. congruence. }
  pose proof (sample_sure (sort_Sort candidates) r [] k c Hdraws) as Hsure.
  destruct (sample (sort_Sort candidates) r [] k) as [ds r''].
  injection Hrun as -> _.
  assert (Hin : Cand_Decision c ∈ ([] : list Decision)).
  { apply Hsure; [cbn; lia | now rewrite (Hperm candidates) | now rewrite Hw]. }
  inversion Hin.
Qed.

(** X9. When no guard passes, nothing is offered, whatever the weights
    and the cap: this is the case in which [gameLoop] gives up. *)
Theorem Decisions_no_guard_passes
    (sort_Sort : CandidateRanking → CandidateRanking)
    {R : Type} `{Rand R} (s : Scenario) (r : R) (world : World) (k : Z) :
  (∀ data, sort_Sort data ≡ₚ data) →
  (∀ n, Forall (λ x, F64.in_unit_interval x = true) (draws n r)) →
  Forall (λ rule, Pass (Rule_Guard rule) world = Done (false, None)) (Rules s) →
  (Decisions sort_Sort s r world k).1 = Done ([], None).
Proof.
  intros Hperm Hdraws Hfalse.
  destruct (Decisions sort_Sort s r world k) as [out r'] eqn:Hrun. cbn.
  assert (Hb : ∃ candidates,
             build_candidates (Rules s) world = Done (candidates, None)).
  { clear Hrun. induction (Rules s) as [|rule rules IH]; [now eexists|].
    apply Forall_cons in Hfalse as [Hrule Hfalse].
    destruct (IH Hfalse) as [candidates Hc]. cbn.
    unfold Evaluate. rewrite Hrule. cbn. rewrite Hc. cbn. now eexists. }
  destruct Hb as [candidates Hb].
  unfold Decisions in Hrun. rewrite Hb in Hrun.
  destruct (sample (sort_Sort candidates) r [] k) as [ds r''] eqn:Hs.
  injection Hrun as <- <-.
  destruct ds as [|d ds]; [reflexivity|]. exfalso.
  assert (Hrun : Decisions sort_Sort s r world k = (Done (d :: ds, None), r''))
    by (unfold Decisions; now rewrite Hb, Hs).
  destruct (Decisions_offered_origin sort_Sort Hperm s r world k _ _ d
              Hdraws Hrun) as (rule & Hrule & _ & Hpass & _); [left|].
  rewrite Forall_forall in Hfalse. specialize (Hfalse _ Hrule). congruence.
Qed.

Lemma Decisions_no_guard_passes_witness :
  (Decisions insertionSort
     (mkScenario [mkRule Example.guard_false 1%float Example.quit;
                  mkRule Example.guard_false 0.5%float Example.wait])
     (AlwaysReturn 0.25%float) Example.world 3).1
    = Done ([], None).
Proof.
  apply (Decisions_no_guard_passes insertionSort _ _ _ _
           insertionSort_Permutation).
  - now apply Constant_in_unit_interval.
  - repeat constructor.
Defined.

(** ** More on [World.Apply] *)

(** What a loop of [Apply] leaves in a map that is not [nil], name by
    name, when every delta has two components or more: the value computed
    from the old one under a name the change has, the old entry under any
    other. *)
Lemma range_update_lookup (M : gmap string Delta)
    (entries : list (string * Delta)) (g : gmap string Z) :
  entries ≡ₚ map_to_list M →
  map_Forall (λ _ delta, (2 ≤ length delta)%nat) M →
  ∃ g',
    range_update entries (Some g) = (Some g', None) ∧
    ∀ name,
      match M !! name with
      | Some delta =>
          ∃ v, updatedValue (default 0 (g !! name)) delta = Done v ∧
               g' !! name = Some v
      | None => g' !! name = g !! name
      end.
Proof.
  intros Horder Hlen.
  apply (order_Forall _ _ Horder (λ d, (2 ≤ length d)%nat)) in Hlen.
  destruct (range_update_spec entries g (order_NoDup _ _ Horder) Hlen)
    as (g' & Hrun & Hupd).
  exists g'. split; [exact Hrun|]. intros name.
  destruct (M !! name) as [delta|] eqn:HM.
  - apply Hupd. now apply (order_elem_of _ _ Horder).
  - exact (range_update_frame _ _ _ _ name Hrun
             (order_absent _ _ Horder _ HM)).
Qed.

(** A call of [Apply] that nothing makes panic, taken apart. *)
Lemma Apply_Done_inv (w : World) (choice : Choice) (w' : World)
    (out : exec (option error)) (gr gp : gmap string Z) :
  Apply w choice w' out →
  World_Resources w = Some gr → World_Powers w = Some gp →
  ¬ short_delta choice →
  ∃ gr' gp',
    w' = mkWorld (Some gr') (Some gp') ∧ out = Done None ∧
    (∀ name,
       match Change_Resources (Choice_Change choice) !! name with
       | Some delta =>
           ∃ v, updatedValue (default 0 (gr !! name)) delta = Done v ∧
                gr' !! name = Some v
       | None => gr' !! name = gr !! name
       end) ∧
    (∀ name,
       match Change_Powers (Choice_Change choice) !! name with
       | Some delta =>
           ∃ v, updatedValue (default 0 (gp !! name)) delta = Done v ∧
                gp' !! name = Some v
       | None => gp' !! name = gp !! name
       end).
Proof.
  intros (resources & powers & Hres & Hpow & Hrun) Hgr Hgp Hshort.
  assert (Hlr : map_Forall (λ _ d, (2 ≤ length d)%nat)
                  (Change_Resources (Choice_Change choice))).
  { intros name delta Hin. destruct (Nat.le_gt_cases 2 (length delta)); [done|].
    destruct Hshort. exists name, delta. auto. }
  assert (Hlp : map_Forall (λ _ d, (2 ≤ length d)%nat)
                  (Change_Powers (Choice_Change choice))).
  { intros name delta Hin. destruct (Nat.le_gt_cases 2 (length delta)); [done|].
    destruct Hshort. exists name, delta. auto. }
  destruct (range_update_lookup _ _ gr Hres Hlr) as (gr' & Hrr & Hlr').
  destruct (range_update_lookup _ _ gp Hpow Hlp) as (gp' & Hrp & Hlp').
  unfold Apply_in in Hrun. rewrite Hgr, Hrr, Hgp, Hrp in Hrun.
  injection Hrun as <- <-. now exists gr', gp'.
Qed.

(** Two maps that a loop of [Apply] may leave from the same map are the
    same map. *)
Lemma loop_result_unique (M : gmap string Delta) (g g1 g2 : gmap string Z) :
  (∀ name,
     match M !! name with
     | Some delta =>
         ∃ v, updatedValue (default 0 (g !! name)) delta = Done v ∧
              g1 !! name = Some v
     | None => g1 !! name = g !! name
     end) →
  (∀ name,
     match M !! name with
     | Some delta =>
         ∃ v, updatedValue (default 0 (g !! name)) delta = Done v ∧
              g2 !! name = Some v
     | None => g2 !! name = g !! name
     end) →
  g1 = g2.
Proof.
  intros H1 H2. apply map_eq. intros name.
  specialize (H1 name). specialize (H2 name).
  destruct (M !! name) as [delta|].
  - destruct H1 as (v1 & Hv1 & ->), H2 as (v2 & Hv2 & ->). congruence.
  - congruence.
Qed.

(** X10. When no delta is short of two components and the maps of the
    world are not [nil], the order in which Go ranges over the maps does
    not show: any two runs of [Apply] on the same world and choice leave
    the same world and return [nil]. *)
Theorem Apply_order_independent (w : World) (choice : Choice)
    (w1 w2 : World) (out1 out2 : exec (option error)) :
  is_Some (World_Resources w) → is_Some (World_Powers w) →
  ¬ short_delta choice →
  Apply w choice w1 out1 →
  Apply w choice w2 out2 →
  w1 = w2 ∧ out1 = Done None ∧ out2 = Done None.
Proof.
  intros [gr Hgr] [gp Hgp] Hshort H1 H2.
  destruct (Apply_Done_inv _ _ _ _ _ _ H1 Hgr Hgp Hshort)
    as (gr1 & gp1 & -> & -> & Hr1 & Hp1).
  destruct (Apply_Done_inv _ _ _ _ _ _ H2 Hgr Hgp Hshort)
    as (gr2 & gp2 & -> & -> & Hr2 & Hp2).
  rewrite (loop_result_unique _ _ _ _ Hr1 Hr2),
          (loop_result_unique _ _ _ _ Hp1 Hp2).
  repeat split.
Qed.

Lemma not_short_delta (choice : Choice) :
  map_Forall (λ _ delta, (2 ≤ length delta)%nat)
             (Change_Resources (Choice_Change choice)) →
  map_Forall (λ _ delta, (2 ≤ length delta)%nat)
             (Change_Powers (Choice_Change choice)) →
  ¬ short_delta choice.
Proof.
  intros Hr Hp (name & delta & [Hin|Hin] & Hlen);
    [apply Hr in Hin | apply Hp in Hin]; lia.
Qed.

Lemma main_accept_not_short : ¬ short_delta main_accept.
Proof.
  apply not_short_delta; apply map_Forall_to_list; vm_compute;
    repeat constructor.
Qed.

Lemma main_reject_not_short : ¬ short_delta main_reject.
Proof.
  apply not_short_delta; apply map_Forall_to_list; vm_compute;
    repeat constructor.
Qed.

Lemma Apply_order_independent_witness :
  world_after_accept = world_after_accept ∧
  @Done (option error) None = Done None ∧
  @Done (option error) None = Done None.
Proof.
  apply (Apply_order_independent Example.world main_accept
           world_after_accept world_after_accept (Done None) (Done None)).
  - eexists; reflexivity.
  - eexists; reflexivity.
  - exact main_accept_not_short.
  - exists [("Money"%string, [0.5; 0]%float);
            ("Popularity"%string, [0; 0]%float)],
           [("Legislation"%string, [0; 100]%float)].
    split; [vm_compute; (reflexivity || apply perm_swap)|].
    split; [vm_compute; reflexivity|]. vm_compute. reflexivity.
  - exists [("Popularity"%string, [0; 0]%float);
            ("Money"%string, [0.5; 0]%float)],
           [("Legislation"%string, [0; 100]%float)].
    split; [vm_compute; (reflexivity || apply perm_swap)|].
    split; [vm_compute; reflexivity|]. vm_compute. reflexivity.
Defined.

(** The value a loop computes for a name depends on the old entry of that
    name only. *)
Lemma loop_result_commute (MA MB : gmap string Delta)
    (g ga gab gb gba : gmap string Z) :
  MA ##ₘ MB →
  (∀ name, match MA !! name with
           | Some delta =>
               ∃ v, updatedValue (default 0 (g !! name)) delta = Done v ∧
                    ga !! name = Some v
           | None => ga !! name = g !! name
           end) →
  (∀ name, match MB !! name with
           | Some delta =>
               ∃ v, updatedValue (default 0 (ga !! name)) delta = Done v ∧
                    gab !! name = Some v
           | None => gab !! name = ga !! name
           end) →
  (∀ name, match MB !! name with
           | Some delta =>
               ∃ v, updatedValue (default 0 (g !! name)) delta = Done v ∧
                    gb !! name = Some v
           | None => gb !! name = g !! name
           end) →
  (∀ name, match MA !! name with
           | Some delta =>
               ∃ v, updatedValue (default 0 (gb !! name)) delta = Done v ∧
                    gba !! name = Some v
           | None => gba !! name = gb !! name
           end) →
  gab = gba.
Proof.
  intros Hdisj HA HAB HB HBA. apply map_eq. intros name.
  specialize (HA name). specialize (HAB name).
  specialize (HB name). specialize (HBA name).
  pose proof (map_disjoint_spec MA MB) as Hspec.
  destruct (MA !! name) as [dA|] eqn:EA, (MB !! name) as [dB|] eqn:EB.
  - exfalso. exact (proj1 Hspec Hdisj _ _ _ EA EB).
  - destruct HA as (v & Hv & Hga), HBA as (v' & Hv' & ->).
    rewrite HAB, Hga. rewrite HB in Hv'. congruence.
  - destruct HB as (v & Hv & Hgb), HAB as (v' & Hv' & ->).
    rewrite HBA, Hgb. rewrite HA in Hv'. congruence.
  - congruence.
Qed.

(** X11. Two choices whose changes name different resources and
    different powers can be applied in either order: with no delta short
    of two components and maps that are not [nil], the world after the one
    then the other is the same. *)
Theorem Apply_disjoint_commute (w : World) (A B : Choice)
    (wa wab wb wba : World) (oa oab ob oba : exec (option error)) :
  is_Some (World_Resources w) → is_Some (World_Powers w) →
  ¬ short_delta A → ¬ short_delta B →
  Change_Resources (Choice_Change A) ##ₘ Change_Resources (Choice_Change B) →
  Change_Powers (Choice_Change A) ##ₘ Change_Powers (Choice_Change B) →
  Apply w A wa oa → Apply wa B wab oab →
  Apply w B wb ob → Apply wb A wba oba →
  wab = wba ∧ oab = Done None ∧ oba = Done None.
Proof.
  intros [gr Hgr] [gp Hgp] HsA HsB Hdr Hdp HA HAB HB HBA.
  destruct (Apply_Done_inv _ _ _ _ _ _ HA Hgr Hgp HsA)
    as (gra & gpa & -> & -> & Hra & Hpa).
  destruct (Apply_Done_inv _ _ _ _ _ _ HB Hgr Hgp HsB)
    as (grb & gpb & -> & -> & Hrb & Hpb).
  destruct (Apply_Done_inv _ _ _ _ _ _ HAB eq_refl eq_refl HsB)
    as (grab & gpab & -> & -> & Hrab & Hpab).
  destruct (Apply_Done_inv _ _ _ _ _ _ HBA eq_refl eq_refl HsA)
    as (grba & gpba & -> & -> & Hrba & Hpba).
  rewrite (loop_result_commute _ _ _ _ _ _ _ Hdr Hra Hrab Hrb Hrba),
          (loop_result_commute _ _ _ _ _ _ _ Hdp Hpa Hpab Hpb Hpba).
  repeat split.
Qed.

(** X12. [Apply] never removes a name: after a call that nothing makes
    panic, the world has the names it had and the names the change
    mentions. A name the world lacked is read as 0 and enters the world
    with the value computed from 0. *)
Theorem Apply_names (w : World) (choice : Choice) (w' : World)
    (out : exec (option error)) :
  is_Some (World_Resources w) → is_Some (World_Powers w) →
  ¬ short_delta choice →
  Apply w choice w' out →
  (∀ name,
     is_Some (map_entry (World_Resources w') name) ↔
     is_Some (map_entry (World_Resources w) name) ∨
     is_Some (Change_Resources (Choice_Change choice) !! name)) ∧
  (∀ name,
     is_Some (map_entry (World_Powers w') name) ↔
     is_Some (map_entry (World_Powers w) name) ∨
     is_Some (Change_Powers (Choice_Change choice) !! name)) ∧
  (∀ name delta,
     map_entry (World_Resources w) name = None →
     Change_Resources (Choice_Change choice) !! name = Some delta →
     ∃ v, updatedValue 0 delta = Done v ∧
          map_entry (World_Resources w') name = Some v) ∧
  (∀ name delta,
     map_entry (World_Powers w) name = None →
     Change_Powers (Choice_Change choice) !! name = Some delta →
     ∃ v, updatedValue 0 delta = Done v ∧
          map_entry (World_Powers w') name = Some v).
Proof.
  intros [gr Hgr] [gp Hgp] Hshort Happly.
  destruct (Apply_Done_inv _ _ _ _ _ _ Happly Hgr Hgp Hshort)
    as (gr' & gp' & -> & -> & Hr & Hp).
  rewrite Hgr, Hgp. cbn [World_Resources World_Powers map_entry].
  split; [|split; [|split]].
  - intros name. specialize (Hr name).
    destruct (Change_Resources (Choice_Change choice) !! name) as [delta|].
    + destruct Hr as (v & _ & ->). split; eauto.
    + rewrite Hr. split; [auto | intros [H|[x Hx]]; [exact H | discriminate]].
  - intros name. specialize (Hp name).
    destruct (Change_Powers (Choice_Change choice) !! name) as [delta|].
    + destruct Hp as (v & _ & ->). split; eauto.
    + rewrite Hp. split; [auto | intros [H|[x Hx]]; [exact H | discriminate]].
  - intros name delta Hnone Hin. specialize (Hr name).
    rewrite Hin, Hnone in Hr. exact Hr.
  - intros name delta Hnone Hin. specialize (Hp name).
    rewrite Hin, Hnone in Hp. exact Hp.
Qed.

(** X13. On a world whose resources map is [nil], a change that names
    a resource makes [Apply] panic before anything is stored: the world is
    the one before the call, and the panic is the assignment to an entry
    of a [nil] map unless a delta of fewer than two components is met
    first. *)
Theorem Apply_nil_map (w : World) (choice : Choice) (w' : World)
    (out : exec (option error)) :
  World_Resources w = None →
  Change_Resources (Choice_Change choice) ≠ ∅ →
  Apply w choice w' out →
  w' = w ∧
  ∃ p, out = Panics p ∧ (¬ short_delta choice → p = NilMapAssignment).
Proof.
  intros Hnil Hne (resources & powers & Hres & Hpow & Hrun).
  unfold Apply_in in Hrun. rewrite Hnil in Hrun.
  destruct resources as [|[name delta] resources].
  { destruct Hne. apply map_to_list_empty_iff.
    symmetry in Hres. now apply Permutation_nil_r in Hres. }
  assert (Hin : Change_Resources (Choice_Change choice) !! name = Some delta)
    by (apply (order_elem_of _ _ Hres); left).
  cbn in Hrun.
  destruct (updatedValue 0 delta) as [v|p] eqn:Hv; cbn in Hrun.
  - injection Hrun as <- <-. split; [destruct w; cbn in *; congruence|].
    eexists. split; [reflexivity | reflexivity].
  - injection Hrun as <- <-. split; [destruct w; cbn in *; congruence|].
    exists p. split; [reflexivity|]. intros Hshort. destruct Hshort.
    exists name, delta. split; [now left|].
    destruct (Nat.le_gt_cases 2 (length delta)) as [Hlen|Hlen]; [|exact Hlen].
    destruct (updatedValue_two 0 delta Hlen) as (? & ? & ? & _ & Heq).
    congruence.
Qed.

(** The runs of [Apply] on the choices of [main]. *)
Lemma Apply_main_accept (w w' : World) :
  Apply_in [("Money"%string, [0.5; 0]%float);
            ("Popularity"%string, [0; 0]%float)]
           [("Legislation"%string, [0; 100]%float)] w = (w', Done None) →
  Apply w main_accept w' (Done None).
Proof.
  intros Hrun.
  exists [("Money"%string, [0.5; 0]%float); ("Popularity"%string, [0; 0]%float)],
         [("Legislation"%string, [0; 100]%float)].
  split; [vm_compute; (reflexivity || apply perm_swap)|].
  split; [vm_compute; reflexivity | exact Hrun].
Qed.

Lemma Apply_main_reject (w w' : World) :
  Apply_in [] [("Military"%string, [0x1.999999999999ap-4; 0]%float)] w
    = (w', Done None) →
  Apply w main_reject w' (Done None).
Proof.
  intros Hrun.
  exists [], [("Military"%string, [0x1.999999999999ap-4; 0]%float)].
  split; [vm_compute; reflexivity|].
  split; [vm_compute; reflexivity | exact Hrun].
Qed.

Lemma Apply_disjoint_commute_witness :
  world_after_both = world_after_both ∧
  @Done (option error) None = Done None ∧
  @Done (option error) None = Done None.
Proof.
  apply (Apply_disjoint_commute Example.world main_accept main_reject
           world_after_accept world_after_both
           world_after_reject world_after_both
           (Done None) (Done None) (Done None) (Done None)).
  - eexists; reflexivity.
  - eexists; reflexivity.
  - exact main_accept_not_short.
  - exact main_reject_not_short.
  - apply map_disjoint_empty_r.
  - apply map_disjoint_singleton_l_2. reflexivity.
  - apply Apply_main_accept. vm_compute. reflexivity.
  - apply Apply_main_reject. vm_compute. reflexivity.
  - apply Apply_main_reject. vm_compute. reflexivity.
  - apply Apply_main_accept. vm_compute. reflexivity.
Defined.

Lemma Apply_names_witness :
  ∃ v, updatedValue 0 [0; 0]%float = Done v ∧
       map_entry (World_Resources world_after_accept) "Popularity" = Some v.
Proof.
  refine (proj1 (proj2 (proj2
            (Apply_names Example.world main_accept world_after_accept
               (Done None) _ _ main_accept_not_short _)))
            "Popularity"%string [0; 0]%float _ _).
  - eexists; reflexivity.
  - eexists; reflexivity.
  - apply Apply_main_accept. vm_compute. reflexivity.
  - vm_compute. reflexivity.
  - vm_compute. reflexivity.
Defined.

Lemma Apply_nil_map_witness :
  zero_World = zero_World ∧
  ∃ p, @Panics (option error) NilMapAssignment = Panics p ∧
       (¬ short_delta Example.choice_A → p = NilMapAssignment).
Proof.
  apply (Apply_nil_map zero_World Example.choice_A zero_World
           (Panics NilMapAssignment)).
  - reflexivity.
  - intros Hempty.
    apply (f_equal (λ m : gmap string Delta, m !! "Money"%string)) in Hempty.
    vm_compute in Hempty. discriminate Hempty.
  - exists [("Money"%string, [0.5; 0]%float)],
           [("Legislation"%string, [0; 100]%float)].
    split; [vm_compute; reflexivity|].
    split; [vm_compute; reflexivity|]. vm_compute. reflexivity.
Defined.

(** ** The turn loop *)

Lemma draws_after {R} `{Rand R} (m : nat) :
  ∀ (r : R) n, draws (m + n) r = draws m r ++ draws n (after_draws m r).
Proof.
  induction m as [|m IH]; intros r n; cbn; [reflexivity|].
  destruct (Float64 r) as [x r'] eqn:Hdraw. cbn. now rewrite IH.
Qed.

Lemma in_unit_interval_after {R} `{Rand R} (r : R) (m : nat) :
  (∀ n, Forall (λ x, F64.in_unit_interval x = true) (draws n r)) →
  ∀ n, Forall (λ x, F64.in_unit_interval x = true) (draws n (after_draws m r)).
Proof.
  intros Hall n. specialize (Hall (m + n)%nat).
  rewrite draws_after in Hall. now apply Forall_app in Hall as [_ Hn].
Qed.

Lemma Decisions_after_draws (sort_Sort : CandidateRanking → CandidateRanking)
    {R : Type} `{Rand R} (s : Scenario) (r : R) (world : World) (k : Z)
    (out : exec (list Decision * option error)) (r' : R) :
  Decisions sort_Sort s r world k = (out, r') → ∃ n, r' = after_draws n r.
Proof.
  unfold Decisions.
  destruct (build_candidates (Rules s) world) as [[candidates [e|]]|p].
  - intros [= _ <-]. now exists 0%nat.
  - destruct (sample_after_draws (sort_Sort candidates) r [] k)
      as (n & _ & Hst & _).
    destruct (sample (sort_Sort candidates) r [] k) as [ds r''].
    intros [= _ <-]. now exists n.
  - intros [= _ <-]. now exists 0%nat.
Qed.

Lemma Decisions_length_bound (sort_Sort : CandidateRanking → CandidateRanking)
    {R : Type} `{Rand R} (s : Scenario) (r : R) (world : World) (k : Z)
    (decisions : list Decision) (r' : R) :
  0 ≤ k →
  Decisions sort_Sort s r world k = (Done (decisions, None), r') →
  Z.of_nat (length decisions) ≤ k + 1.
Proof.
  intros Hk. unfold Decisions.
  destruct (build_candidates (Rules s) world) as [[candidates [e|]]|p];
    try discriminate.
  pose proof (sample_length (sort_Sort candidates) r [] k Hk) as Hlen.
  destruct (sample (sort_Sort candidates) r [] k) as [ds r''].
  now intros [= <- _].
Qed.

Lemma Apply_no_error (w : World) (choice : Choice) (w' : World) (err : error) :
  ¬ Apply w choice w' (Done (Some err)).
Proof.
  intros (resources & powers & _ & _ & Hrun). unfold Apply_in in Hrun.
  destruct (range_update resources (World_Resources w)) as [rs [p|]];
    [discriminate|].
  destruct (range_update powers (World_Powers w)) as [ps [p|]]; discriminate.
Qed.

Lemma Apply_untouched (w : World) (choice : Choice) (w' : World)
    (out : exec (option error)) :
  Apply w choice w' out →
  (∀ name, Change_Resources (Choice_Change choice) !! name = None →
           map_entry (World_Resources w') name
             = map_entry (World_Resources w) name) ∧
  (∀ name, Change_Powers (Choice_Change choice) !! name = None →
           map_entry (World_Powers w') name = map_entry (World_Powers w) name).
Proof.
  intros (resources & powers & Hres & Hpow & Hrun). unfold Apply_in in Hrun.
  destruct (range_update resources (World_Resources w)) as [rs p] eqn:Hrs.
  split; intros name Hnone.
  - pose proof (order_absent _ _ Hres _ Hnone) as Hnotin.
    rewrite <- (range_update_frame _ _ _ _ _ Hrs Hnotin).
    destruct p as [p|]; [now injection Hrun as <- _|].
    destruct (range_update powers (World_Powers w)) as [ps [p|]];
      now injection Hrun as <- _.
  - pose proof (order_absent _ _ Hpow _ Hnone) as Hnotin.
    destruct p as [p|]; [now injection Hrun as <- _|].
    destruct (range_update powers (World_Powers w)) as [ps p] eqn:Hps.
    rewrite <- (range_update_frame _ _ _ _ _ Hps Hnotin).
    destruct p as [p|]; now injection Hrun as <- _.
Qed.

Section Turns.

Variable sort_Sort : CandidateRanking → CandidateRanking.
Context {R : Type} `{Rand R}.
Variable scenario : Scenario.

(** X14. In every run of the turn loop, each list of decisions sent to
    the consumer has at least one decision and at most four (the cap of 3,
    and the one the sampling loop may add). *)
Theorem turns_offer_one_to_four (w : World) (r : R) (choices : list Choice)
    (trace : list event) (e : ending) :
  turns sort_Sort scenario w r choices trace e →
  Forall (λ ev, match ev with
                | SendDecisions ds => (1 ≤ length ds ≤ 4)%nat
                | SendWorld _ => True
                end) trace.
Proof.
  assert (Hbound : ∀ w r ds r',
            Decisions sort_Sort scenario r w turn_cap = (Done (ds, None), r') →
            ds ≠ [] → (1 ≤ length ds ≤ 4)%nat).
  { intros w0 r0 ds r' Hrun Hne.
    apply Decisions_length_bound in Hrun; [|unfold turn_cap; lia].
    unfold turn_cap in Hrun. destruct ds; [congruence | cbn in *; lia]. }
  induction 1 as [ | | | w r ds r' Hrun Hne
                 | w r choice choices ds r' w' p Hrun Hne _
                 | w r choice choices ds r' w' err Hrun Hne _
                 | w r choice choices ds r' w' trace e Hrun Hne _ _ IH];
    repeat (constructor; eauto).
Qed.

(** X15. The turn loop never takes the exit that reports an error of
    [Apply]: [Apply] has no error to return. *)
Theorem turns_never_ApplyFailed (w : World) (r : R) (choices : list Choice)
    (trace : list event) (e : ending) :
  turns sort_Sort scenario w r choices trace e →
  ∀ err, e ≠ ApplyFailed err.
Proof.
  induction 1 as [ | | | |
                 | w r choice choices ds r' w' err Hrun Hne Happly
                 | w r choice choices ds r' w' trace e Hrun Hne _ _ IH];
    intros err'; try discriminate.
  - now destruct (Apply_no_error _ _ _ _ Happly).
  - apply IH.
Qed.

(** X16. With a sort that permutes, draws in [[0,1)] and a rule whose
    guard always passes and whose weight is 1 or more (as the ["Quit"]
    rule of [main]), the turn loop never gives up for want of a decision:
    no run ends stuck. *)
Theorem turns_never_Stuck (w : World) (r : R) (choices : list Choice)
    (trace : list event) (e : ending) (rule : Rule) :
  (∀ data, sort_Sort data ≡ₚ data) →
  (∀ n, Forall (λ x, F64.in_unit_interval x = true) (draws n r)) →
  rule ∈ Rules scenario →
  (∀ world, Pass (Rule_Guard rule) world = Done (true, None)) →
  PrimFloat.leb 1%float (Weight rule) = true →
  turns sort_Sort scenario w r choices trace e →
  e ≠ Stuck.
Proof.
  intros Hperm Hdraws Hrule Hpass Hweight Hturns.
  induction Hturns as [ | | w r choices r' Hrun | |  |
                      | w r choice choices ds r' w' trace e Hrun Hne _ _ IH];
    try discriminate.
  - exfalso.
    refine (Decisions_not_empty sort_Sort scenario r w turn_cap [] r' rule
              Hperm Hdraws _ Hrun Hrule (Hpass w) Hweight eq_refl).
    unfold turn_cap. lia.
  - apply IH.
    destruct (Decisions_after_draws _ _ _ _ _ _ _ Hrun) as [n ->].
    now apply in_unit_interval_after.
Qed.

(** X17. A resource or a power that none of the choices received names
    stands in every world the loop sends as it stood in the first one. *)
Theorem turns_untouched (w : World) (r : R) (choices : list Choice)
    (trace : list event) (e : ending) (name : string) :
  turns sort_Sort scenario w r choices trace e →
  Forall (λ choice,
            Change_Resources (Choice_Change choice) !! name = None ∧
            Change_Powers (Choice_Change choice) !! name = None) choices →
  Forall (λ ev, match ev with
                | SendWorld w' =>
                    map_entry (World_Resources w') name
                      = map_entry (World_Resources w) name ∧
                    map_entry (World_Powers w') name
                      = map_entry (World_Powers w) name
                | SendDecisions _ => True
                end) trace.
Proof.
  induction 1 as [ | | | | |
                 | w r choice choices ds r' w' trace e Hrun Hne Happly _ IH];
    intros Hchoices; repeat (constructor; auto).
  apply Forall_cons in Hchoices as [[Hr Hp] Hchoices].
  destruct (Apply_untouched _ _ _ _ Happly) as [Hfr Hfp].
  eapply Forall_impl; [exact (IH Hchoices)|].
  intros [w''|ds'] Hev; [|exact I].
  destruct Hev as [Hev1 Hev2].
  rewrite Hev1, Hev2, (Hfr _ Hr), (Hfp _ Hp). now split.
Qed.

End Turns.

(** A run of [gameLoop]: ["Accept"] once, then the channel closed. *)
Lemma accept_once_run :
  gameLoop insertionSort main_scenario (AlwaysReturn 0.25%float)
           [main_accept] accept_once_trace ChoiceClosed.
Proof.
  unfold gameLoop, accept_once_trace.
  eapply (turn_next insertionSort main_scenario Example.world
            (AlwaysReturn 0.25%float) main_accept []
            [main_make_putsch; main_quit] (AlwaysReturn 0.25%float)
            world_after_accept).
  - vm_compute. reflexivity.
  - discriminate.
  - apply Apply_main_accept. vm_compute. reflexivity.
  - eapply (turn_ChoiceClosed insertionSort main_scenario world_after_accept
              (AlwaysReturn 0.25%float) [main_make_putsch; main_quit]
              (AlwaysReturn 0.25%float)).
    + vm_compute. reflexivity.
    + discriminate.
Qed.

Lemma turns_offer_one_to_four_witness :
  Forall (λ ev, match ev with
                | SendDecisions ds => (1 ≤ length ds ≤ 4)%nat
                | SendWorld _ => True
                end) accept_once_trace.
Proof.
  exact (turns_offer_one_to_four insertionSort main_scenario _ _ _ _ _
           accept_once_run).
Defined.

Lemma turns_never_ApplyFailed_witness :
  ChoiceClosed ≠ ApplyFailed "malformed delta".
Proof.
  exact (turns_never_ApplyFailed insertionSort main_scenario _ _ _ _ _
           accept_once_run "malformed delta"%string).
Defined.

Lemma turns_never_Stuck_witness : ChoiceClosed ≠ Stuck.
Proof.
  apply (turns_never_Stuck insertionSort main_scenario Example.world
           (AlwaysReturn 0.25%float) [main_accept] accept_once_trace
           ChoiceClosed (mkRule Example.guard_true 1%float main_quit)).
  - exact insertionSort_Permutation.
  - now apply Constant_in_unit_interval.
  - cbn. right. left.
  - reflexivity.
  - reflexivity.
  - exact accept_once_run.
Defined.

Lemma turns_untouched_witness :
  Forall (λ ev, match ev with
                | SendWorld w' =>
                    map_entry (World_Resources w') "Military"
                      = map_entry (World_Resources Example.world) "Military" ∧
                    map_entry (World_Powers w') "Military"
                      = map_entry (World_Powers Example.world) "Military"
                | SendDecisions _ => True
                end) accept_once_trace.
Proof.
  apply (turns_untouched insertionSort main_scenario Example.world
           (AlwaysReturn 0.25%float) [main_accept] accept_once_trace
           ChoiceClosed "Military" accept_once_run).
  constructor; [|constructor]. split; vm_compute; reflexivity.
Defined.

(** ** The choice table *)

Lemma foldl_append {A} (l : list A) : ∀ acc, foldl (λ xs x, xs ++ [x]) acc l = acc ++ l.
Proof.
  induction l as [|x l IH]; intros acc; cbn; [now rewrite app_nil_r|].
  now rewrite IH, <- app_assoc.
Qed.

(** The rows are the choices of the decisions, decision after decision. *)
Lemma table_choices_concat (decisions : list Decision) :
  table_choices decisions = mjoin (Choices <$> decisions).
Proof.
  unfold table_choices.
  enough (∀ acc,
            foldl (λ choices decision,
                     foldl (λ choices choice, choices ++ [choice])
                           choices (Choices decision)) acc decisions
            = acc ++ mjoin (Choices <$> decisions)) as Hgen
    by exact (Hgen []).
  induction decisions as [|d decisions IH]; intros acc; cbn;
    [now rewrite app_nil_r|].
  now rewrite IH, foldl_append, <- app_assoc.
Qed.

(** X18. Whatever row is activated, the console sends the game loop a
    choice of one of the decisions it was offered, and it sends one
    exactly when the row is within the table; the table has one row per
    choice, so a decision without choices cannot be answered. *)
Theorem OnItemActivated_offered (decisions : list Decision) (selected : Z) :
  (∀ choice,
     OnItemActivated (table_choices decisions) selected = Some choice →
     ∃ decision, decision ∈ decisions ∧ choice ∈ Choices decision) ∧
  (is_Some (OnItemActivated (table_choices decisions) selected) ↔
   0 ≤ selected < Z.of_nat (length (table_choices decisions))) ∧
  length (table_choices decisions)
    = sum_list (length ∘ Choices <$> decisions).
Proof.
  split; [|split].
  - intros choice. unfold OnItemActivated.
    destruct (_ && _); [|discriminate].
    intros Hin%list_elem_of_lookup_2.
    rewrite table_choices_concat in Hin.
    apply list_elem_of_join in Hin as (choices & Hchoice & Hchoices).
    apply list_elem_of_fmap in Hchoices as (decision & -> & Hdecision).
    now exists decision.
  - unfold OnItemActivated.
    destruct (Z.geb_spec selected 0), (Z.ltb_spec selected
                (Z.of_nat (length (table_choices decisions)))); cbn.
    + split; [lia|]. intros _. apply lookup_lt_is_Some_2. lia.
    + split; [intros [? ?]; discriminate | lia].
    + split; [intros [? ?]; discriminate | lia].
    + split; [intros [? ?]; discriminate | lia].
  - rewrite table_choices_concat.
    induction decisions as [|d decisions IH]; [reflexivity|].
    rewrite !fmap_cons. cbn [mjoin list_join sum_list sum_list_with].
    rewrite length_app. cbn [compose]. f_equal. exact IH.
Qed.

Lemma OnItemActivated_offered_witness :
  ∃ decision, decision ∈ [main_make_putsch; main_quit] ∧
              main_quit_accept ∈ Choices decision.
Proof.
  apply (proj1 (OnItemActivated_offered [main_make_putsch; main_quit] 2)).
  reflexivity.
Defined.

(** ** The rules of [main] *)

(** X19. [main] looks at the error of the second [NewRule] only. When
    the first guard does not parse and ["true"] does, nothing is reported:
    the game starts with the zero rule in the place of the first one, and
    ["Make putsch"] is never among the decisions offered. *)
Theorem main_rules_first_error
    (expr_Parse : string → expr_Node * option error) (nil_Node : expr_Node)
    (node node' : expr_Node) (err : error) :
  expr_Parse main_guard = (node, Some err) →
  expr_Parse "true" = (node', None) →
  main_rules expr_Parse nil_Node
    = Started (mkScenario [zero_Rule nil_Node;
                           mkRule (mkGuard node') 1%float main_quit]) ∧
  ∀ (sort_Sort : CandidateRanking → CandidateRanking)
    (R : Type) (H : Rand R) (r : R) (world : World) (k : Z)
    (decisions : list Decision) (r' : R),
    (∀ data, sort_Sort data ≡ₚ data) →
    (∀ n, Forall (λ x, F64.in_unit_interval x = true) (draws n r)) →
    Decisions sort_Sort
      (mkScenario [zero_Rule nil_Node;
                   mkRule (mkGuard node') 1%float main_quit])
      r world k = (Done (decisions, None), r') →
    main_make_putsch ∉ decisions.
Proof.
  intros Hfirst Hsecond. split.
  - unfold main_rules, NewRule. now rewrite Hfirst, Hsecond.
  - intros sort_Sort R H r world k decisions r' Hperm Hdraws Hrun Hin.
    destruct (Decisions_offered_origin sort_Sort Hperm _ r world k _ _ _
                Hdraws Hrun Hin) as (rule & Hrule & Hdec & _).
    cbn [Rules] in Hrule.
    repeat (apply elem_of_cons in Hrule as [->|Hrule]);
      [discriminate Hdec | discriminate Hdec | inversion Hrule].
Qed.

Lemma main_rules_first_error_witness :
  main_rules parse_only_true nil_node_fails
    = Started (mkScenario [zero_Rule nil_node_fails;
                           mkRule (mkGuard (Node Example.guard_true))
                                  1%float main_quit]).
Proof.
  refine (proj1 (main_rules_first_error parse_only_true nil_node_fails
                   (Node Example.guard_not_bool) (Node Example.guard_true)
                   "syntax error" _ _)); reflexivity.
Defined.
